(** * Image steganography: the fallback LSB codec of
    [image_steganography.core] and the path helper of [image_steganography.utils].

    The model follows [core.py] with the third-party [stegano] backend absent
    ([lsb is None]), so that [encode_message_to_image] and
    [decode_message_from_image] run [_fallback_encode] and [_fallback_decode].

    - Python [int] values are [Z]; [bytes] are [list Z] with values in 0..255.
    - A Python [str] is its list of code points ([list Z], each in
      0..0x10FFFF); [str.encode("utf-8")] and [bytes.decode("utf-8")] are the
      strict UTF-8 codec of CPython.
    - An RGBA image after [.convert("RGBA")] is a list of rows (row [y] holds
      the pixels [x = 0 .. width-1]), each pixel a record of four channels.
    - The file system is a function from paths to stored images; saving as
      PNG is lossless, so a saved image is read back unchanged. *)

From Stdlib Require Import ZArith String Ascii Bool List Lia.
Import ListNotations.
Open Scope Z_scope.

(* ------------------------------------------------------------------ *)
(** ** Bit codec: [_to_bits] and [_from_bits] (core.py lines 97-111) *)

(** [_to_bits]: [for byte in data: for i in range(8):
    yield (byte >> (7 - i)) & 1]. *)
Definition byte_bits (byte : Z) : list Z :=
  map (fun i => Z.land (Z.shiftr byte (7 - i)) 1) [0; 1; 2; 3; 4; 5; 6; 7].

Definition _to_bits (data : list Z) : list Z := flat_map byte_bits data.

(** The loop of [_from_bits] from the position [i] (the last value of the
    [enumerate] counter) with the partial byte [b]; each completed byte is
    appended to [out], which is the list returned. *)
Fixpoint from_bits_loop (bits : list Z) (i : Z) (b : Z) : list Z :=
  match bits with
  | [] => []
  | bit :: rest =>
      let b' := Z.lor (Z.shiftl b 1) bit in
      let i' := i + 1 in
      if i' mod 8 =? 0 then b' :: from_bits_loop rest i' 0
      else from_bits_loop rest i' b'
  end.

(** [_from_bits(bits)]: [b = 0], [enumerate(bits, start=1)]. *)
Definition _from_bits (bits : list Z) : list Z := from_bits_loop bits 0 0.

(* ------------------------------------------------------------------ *)
(** ** Integers to and from big-endian bytes *)

(** [n.to_bytes(4, "big")]: raises [OverflowError] unless [0 <= n < 2^32]
    ([n] is a length here, hence never negative). *)
Definition to_bytes4 (n : Z) : option (list Z) :=
  if (0 <=? n) && (n <? 2 ^ 32) then
    Some [(n / 2 ^ 24) mod 256; (n / 2 ^ 16) mod 256; (n / 2 ^ 8) mod 256; n mod 256]
  else None.

(** [int.from_bytes(bs, "big")]. *)
Definition from_bytes (bs : list Z) : Z :=
  fold_left (fun acc byte => acc * 256 + byte) bs 0.

(** [bytes.startswith(prefix)]. *)
Fixpoint startswith (bs prefix : list Z) : bool :=
  match prefix, bs with
  | [], _ => true
  | p :: ps, c :: cs => (c =? p) && startswith cs ps
  | _ :: _, [] => false
  end.

(** Python slice [xs[lo:hi]] with [0 <= lo <= hi]. *)
Definition slice {A} (xs : list A) (lo hi : nat) : list A :=
  firstn (hi - lo) (skipn lo xs).

(** [_HEADER = b"IMSG\x00"]. *)
Definition _HEADER : list Z := [73; 77; 83; 71; 0].

(* ------------------------------------------------------------------ *)
(** ** Strict UTF-8 ([str.encode("utf-8")], [bytes.decode("utf-8")])

    CPython's codec, with its shifts and masks written as the equal
    quotients, remainders and sums on the values concerned. *)

Definition is_surrogate (cp : Z) : bool := (0xD800 <=? cp) && (cp <=? 0xDFFF).

(** Encoding of one code point; [None] is [UnicodeEncodeError]
    (a lone surrogate). *)
Definition utf8_encode_char (cp : Z) : option (list Z) :=
  if cp <? 0x80 then Some [cp]
  else if cp <? 0x800 then Some [0xC0 + cp / 64; 0x80 + cp mod 64]
  else if is_surrogate cp then None
  else if cp <? 0x10000 then
    Some [0xE0 + cp / 4096; 0x80 + (cp / 64) mod 64; 0x80 + cp mod 64]
  else
    Some [0xF0 + cp / 262144; 0x80 + (cp / 4096) mod 64;
          0x80 + (cp / 64) mod 64; 0x80 + cp mod 64].

Fixpoint utf8_encode (s : list Z) : option (list Z) :=
  match s with
  | [] => Some []
  | cp :: rest =>
      match utf8_encode_char cp, utf8_encode rest with
      | Some bs, Some bs' => Some (bs ++ bs')
      | _, _ => None
      end
  end.

Definition in_range (x lo hi : Z) : bool := (lo <=? x) && (x <=? hi).
Definition is_cont (x : Z) : bool := in_range x 0x80 0xBF.

(** Admissible range of the second byte of a 3- and a 4-byte sequence
    (no overlong forms, no surrogates, nothing above 0x10FFFF). *)
Definition lo3 (b0 : Z) : Z := if b0 =? 0xE0 then 0xA0 else 0x80.
Definition hi3 (b0 : Z) : Z := if b0 =? 0xED then 0x9F else 0xBF.
Definition lo4 (b0 : Z) : Z := if b0 =? 0xF0 then 0x90 else 0x80.
Definition hi4 (b0 : Z) : Z := if b0 =? 0xF4 then 0x8F else 0xBF.

Definition cons_opt (x : Z) (r : option (list Z)) : option (list Z) :=
  match r with Some xs => Some (x :: xs) | None => None end.

(** Decoding; [None] is [UnicodeDecodeError]. *)
Fixpoint utf8_decode (bs : list Z) : option (list Z) :=
  match bs with
  | [] => Some []
  | b0 :: r0 =>
      if b0 <? 0x80 then cons_opt b0 (utf8_decode r0)
      else if in_range b0 0xC2 0xDF then
        match r0 with
        | b1 :: r1 =>
            if is_cont b1
            then cons_opt ((b0 - 0xC0) * 64 + (b1 - 0x80)) (utf8_decode r1)
            else None
        | [] => None
        end
      else if in_range b0 0xE0 0xEF then
        match r0 with
        | b1 :: b2 :: r2 =>
            if in_range b1 (lo3 b0) (hi3 b0) && is_cont b2
            then cons_opt ((b0 - 0xE0) * 4096 + (b1 - 0x80) * 64 + (b2 - 0x80))
                          (utf8_decode r2)
            else None
        | _ => None
        end
      else if in_range b0 0xF0 0xF4 then
        match r0 with
        | b1 :: b2 :: b3 :: r3 =>
            if in_range b1 (lo4 b0) (hi4 b0) && is_cont b2 && is_cont b3
            then cons_opt ((b0 - 0xF0) * 262144 + (b1 - 0x80) * 4096
                           + (b2 - 0x80) * 64 + (b3 - 0x80))
                          (utf8_decode r3)
            else None
        | _ => None
        end
      else None
  end.

(** A code point of a Python [str], and one that UTF-8 can encode. *)
Definition is_code_point (cp : Z) : Prop := 0 <= cp <= 0x10FFFF.
Definition is_scalar (cp : Z) : Prop := is_code_point cp /\ is_surrogate cp = false.
Definition is_byte (v : Z) : Prop := 0 <= v < 256.
Definition is_bit (v : Z) : Prop := v = 0 \/ v = 1.

(* ------------------------------------------------------------------ *)
(** ** Pixels and images *)

Record pixel := Pixel { red : Z; green : Z; blue : Z; alpha : Z }.

(** An RGBA image: [img.size] and the rows of [img.load()], row [y] being
    [pixels[0, y], ..., pixels[width-1, y]]. *)
Record image := Image {
  width : nat;
  height : nat;
  rows : list (list pixel)
}.

Definition well_formed (img : image) : Prop :=
  length (rows img) = height img /\ Forall (fun row => length row = width img) (rows img).

(** [(v & ~1) | bit]. *)
Definition set_lsb (v bit : Z) : Z := Z.lor (Z.land v (Z.lnot 1)) bit.

(** One pixel of the loop of [_fallback_encode] (lines 128-137): the three
    [next(it)] calls; the boolean is [true] when [StopIteration] was raised,
    in which case the channels assigned so far are kept. *)
Definition write_pixel (p : pixel) (it : list Z) : pixel * list Z * bool :=
  match it with
  | [] => (p, [], true)
  | br :: it1 =>
      let r := set_lsb (red p) br in
      match it1 with
      | [] => (Pixel r (green p) (blue p) (alpha p), [], true)
      | bg :: it2 =>
          let g := set_lsb (green p) bg in
          match it2 with
          | [] => (Pixel r g (blue p) (alpha p), [], true)
          | bb :: it3 => (Pixel r g (set_lsb (blue p) bb) (alpha p), it3, false)
          end
      end
  end.

(** [for x in range(width)]; after [StopIteration] the function returns, so
    the rest of the row is left as it is. *)
Fixpoint write_row (row : list pixel) (it : list Z) : list pixel * list Z * bool :=
  match row with
  | [] => ([], it, false)
  | p :: ps =>
      match write_pixel p it with
      | (p', it', true) => (p' :: ps, it', true)
      | (p', it', false) =>
          match write_row ps it' with
          | (ps', it'', s) => (p' :: ps', it'', s)
          end
      end
  end.

(** [for y in range(height)]: the rows after an early return are unchanged. *)
Fixpoint write_rows (rs : list (list pixel)) (it : list Z) : list (list pixel) :=
  match rs with
  | [] => []
  | row :: rs' =>
      match write_row row it with
      | (row', _, true) => row' :: rs'
      | (row', it', false) => row' :: write_rows rs' it'
      end
  end.

(** The loop of [_fallback_decode] (lines 147-151):
    [bits.extend([r & 1, g & 1, b & 1])] in the same order. *)
Definition read_pixel (p : pixel) : list Z :=
  [Z.land (red p) 1; Z.land (green p) 1; Z.land (blue p) 1].

Definition read_row (row : list pixel) : list Z := flat_map read_pixel row.
Definition read_rows (rs : list (list pixel)) : list Z := flat_map read_row rs.

(* ------------------------------------------------------------------ *)
(** ** Errors *)

(** The messages of the [SteganographyError]s raised by [core.py]. *)
Inductive steg_reason :=
| CoverNotFound      (* "Cover image not found: ..." *)
| EmptyMessage       (* "Message must not be empty" *)
| TooLarge           (* "Message is too large for this image in fallback mode." *)
| ImageNotFound      (* "Image not found: ..." *)
| NoHiddenMessage.   (* "No hidden message found or unable to decode." *)

Inductive error :=
| SteganographyError (r : steg_reason)
| UnicodeEncodeError
| OverflowError
| ValueError
| FileNotFoundError.

Inductive result (A : Type) :=
| Ok (a : A)
| Err (e : error).
Arguments Ok {A} a.
Arguments Err {A} e.

(* ------------------------------------------------------------------ *)
(** ** Paths ([pathlib.PurePosixPath], CPython 3.11) and [ensure_png] *)

(** A parsed path: its anchor (["/"] or [""]) and its non-empty components
    ([Path] has already dropped ["."] components and repeated slashes). *)
Record path := Path { anchor : string; parts : list string }.

Definition path_eq_dec (p q : path) : {p = q} + {p <> q}.
Proof. decide equality; [apply list_eq_dec |]; apply string_dec. Defined.

(** [p.name]: the last component, [""] when there is none. *)
Definition name (p : path) : string := last (parts p) EmptyString.

(** [name.rfind('.')], [None] standing for [-1]. *)
Fixpoint rfind_dot_from (s : string) (i : nat) (acc : option nat) : option nat :=
  match s with
  | EmptyString => acc
  | String c s' => rfind_dot_from s' (S i) (if Ascii.eqb c "." then Some i else acc)
  end.

Definition rfind_dot (s : string) : option nat := rfind_dot_from s 0 None.

(** [p.suffix]: [name[i:]] when [0 < i < len(name) - 1], else [""]. *)
Definition suffix (p : path) : string :=
  let n := name p in
  match rfind_dot n with
  | Some i =>
      if Nat.ltb 0 i && Nat.ltb i (String.length n - 1)
      then substring i (String.length n - i) n
      else EmptyString
  | None => EmptyString
  end.

(** [p.with_suffix(suf)] for a well-formed [suf] such as [".png"] (the
    checks on the argument pass): [ValueError] on an empty name, otherwise
    the old suffix, if any, is replaced in the last component. *)
Definition with_suffix (p : path) (suf : string) : result path :=
  let n := name p in
  if String.eqb n EmptyString then Err ValueError
  else
    let old := suffix p in
    let n' := if String.eqb old EmptyString then String.append n suf
              else String.append (substring 0 (String.length n - String.length old) n) suf in
    Ok (Path (anchor p) (removelast (parts p) ++ [n'])).


(** [str.lower()] on ASCII. *)
Definition lower_char (c : ascii) : ascii :=
  let k := nat_of_ascii c in
  if Nat.leb 65 k && Nat.leb k 90 then ascii_of_nat (k + 32) else c.

Fixpoint lower (s : string) : string :=
  match s with
  | EmptyString => EmptyString
  | String c s' => String (lower_char c) (lower s')
  end.

(** [ensure_png] (utils.py lines 32-40). *)
Definition ensure_png (p : path) : result path :=
  if negb (String.eqb (lower (suffix p)) ".png") then with_suffix p ".png"
  else Ok p.

(* ------------------------------------------------------------------ *)
(** ** File system and the public API *)

(** Stored images, by path; [Image.open(p).convert("RGBA")] reads one. *)
Definition fs := path -> option image.

(** [img.save(out)] (PNG, lossless). *)
Definition save (f : fs) (p : path) (img : image) : fs :=
  fun q => if path_eq_dec q p then Some img else f q.

(** The payload of [_fallback_encode] (line 119); the two exceptions are
    those of [message.encode("utf-8")] and of [.to_bytes(4, "big")]. *)
Definition payload (message : list Z) : result (list Z) :=
  match utf8_encode message with
  | None => Err UnicodeEncodeError
  | Some data =>
      match to_bytes4 (Z.of_nat (length data)) with
      | None => Err OverflowError
      | Some lenb => Ok (_HEADER ++ lenb ++ data)
      end
  end.

Definition capacity (img : image) : nat := (width img * height img * 3)%nat.

(** [_fallback_encode(cover, message, out)] (lines 114-139). *)
Definition _fallback_encode (f : fs) (cover : path) (message : list Z) (out : path)
  : fs * result unit :=
  match f cover with
  | None => (f, Err FileNotFoundError)
  | Some img =>
      match payload message with
      | Err e => (f, Err e)
      | Ok pl =>
          let bits := _to_bits pl in
          if Nat.ltb (capacity img) (length bits)
          then (f, Err (SteganographyError TooLarge))
          else (save f out (Image (width img) (height img) (write_rows (rows img) bits)),
                Ok tt)
      end
  end.

(** [encode_message_to_image(cover_image, message, output_path)]
    (lines 47-69) with [lsb is None]. *)
Definition encode_message_to_image (f : fs) (cover : path) (message : list Z)
  (output_path : path) : fs * result path :=
  match f cover with
  | None => (f, Err (SteganographyError CoverNotFound))
  | Some _ =>
      match message with
      | [] => (f, Err (SteganographyError EmptyMessage))
      | _ :: _ =>
          match ensure_png output_path with
          | Err e => (f, Err e)
          | Ok out =>
              match _fallback_encode f cover message out with
              | (f', Ok _) => (f', Ok out)
              | (f', Err e) => (f', Err e)
              end
          end
      end
  end.

(** The decoding part of [_fallback_decode] (lines 147-166), on the loaded
    image; [""] is returned when the header is missing or the bytes are not
    UTF-8. *)
Definition fallback_decode_image (img : image) : list Z :=
  let bits := read_rows (rows img) in
  let header_len_bits := ((5 + 4) * 8)%nat in
  let header_bytes := _from_bits (firstn header_len_bits bits) in
  if negb (startswith header_bytes _HEADER) then []
  else
    let msg_len := from_bytes (slice header_bytes 5 (5 + 4)) in
    let msg_bits := slice bits header_len_bits
                      (header_len_bits + Z.to_nat (msg_len * 8)) in
    match utf8_decode (_from_bits msg_bits) with
    | Some s => s
    | None => []
    end.

Definition _fallback_decode (f : fs) (stego : path) : result (list Z) :=
  match f stego with
  | None => Err FileNotFoundError
  | Some img => Ok (fallback_decode_image img)
  end.

(** [decode_message_from_image(stego_image)] (lines 72-87) with
    [lsb is None]; it reads the file system only. *)
Definition decode_message_from_image (f : fs) (stego : path) : result (list Z) :=
  match f stego with
  | None => Err (SteganographyError ImageNotFound)
  | Some _ =>
      match _fallback_decode f stego with
      | Err e => Err e
      | Ok [] => Err (SteganographyError NoHiddenMessage)
      | Ok msg => Ok msg
      end
  end.

(* ------------------------------------------------------------------ *)
(** ** [is_lossless_image] (utils.py lines 29, 43-45) *)

(** [LOSSLESS_EXTS = {".png", ".bmp", ".tiff", ".tif"}]. *)
Definition LOSSLESS_EXTS : list string := [".png"; ".bmp"; ".tiff"; ".tif"]%string.

(** [Path(path).suffix.lower() in LOSSLESS_EXTS]. *)
Definition is_lossless_image (p : path) : bool :=
  existsb (String.eqb (lower (suffix p))) LOSSLESS_EXTS.

(* ------------------------------------------------------------------ *)
(** ** Paths from and to strings ([PurePosixPath], CPython 3.11) *)

(** [part.lstrip("/")]. *)
Fixpoint lstrip_slash (s : string) : string :=
  match s with
  | String c s' => if Ascii.eqb c "/" then lstrip_slash s' else s
  | EmptyString => s
  end.

(** [_PosixFlavour.splitroot] without the (always empty) drive: the root
    and the rest; exactly two leading slashes are kept, one or three and
    more become one. *)
Definition splitroot (part : string) : string * string :=
  match part with
  | String c _ =>
      if Ascii.eqb c "/" then
        let stripped := lstrip_slash part in
        if Nat.eqb (String.length part - String.length stripped) 2
        then ("//"%string, stripped) else ("/"%string, stripped)
      else (EmptyString, part)
  | EmptyString => (EmptyString, part)
  end.

(** [s.split("/")], the current field being [cur]. *)
Fixpoint split_slash_from (s : string) (cur : string) : list string :=
  match s with
  | EmptyString => [cur]
  | String c s' =>
      if Ascii.eqb c "/" then cur :: split_slash_from s' EmptyString
      else split_slash_from s' (String.append cur (String c EmptyString))
  end.

Definition split_slash (s : string) : list string := split_slash_from s EmptyString.

(** [Path(s)] for one string argument ([_parse_args], [_parse_parts]): the
    components of [rel.split("/")] other than [""] and ["."]. *)
Definition path_of_string (s : string) : path :=
  let (root, rel) := splitroot s in
  Path root (filter (fun x => negb (String.eqb x EmptyString) && negb (String.eqb x "."))
                    (split_slash rel)).

(** ["/".join(parts)]. *)
Fixpoint join_slash (l : list string) : string :=
  match l with
  | [] => EmptyString
  | [x] => x
  | x :: r => String.append x (String "/" (join_slash r))
  end.

(** [str(p)] and [p.as_posix()]: [_format_parsed_parts], or ["."] for the
    empty path. *)
Definition str_path (p : path) : string :=
  let s := String.append (anchor p) (join_slash (parts p)) in
  if String.eqb s EmptyString then "." else s.

(* ------------------------------------------------------------------ *)
(** ** [str.strip()] *)

(** [str.isspace] on one code point (CPython's [Py_UNICODE_ISSPACE]). *)
Definition is_space (cp : Z) : bool :=
  ((0x09 <=? cp) && (cp <=? 0x0D)) || ((0x1C <=? cp) && (cp <=? 0x20)) ||
  (cp =? 0x85) || (cp =? 0xA0) || (cp =? 0x1680) ||
  ((0x2000 <=? cp) && (cp <=? 0x200A)) || (cp =? 0x2028) || (cp =? 0x2029) ||
  (cp =? 0x202F) || (cp =? 0x205F) || (cp =? 0x3000).

Fixpoint lstrip_ws (s : list Z) : list Z :=
  match s with
  | cp :: rest => if is_space cp then lstrip_ws rest else s
  | [] => []
  end.

(** [s.strip()]: whitespace removed at both ends. *)
Definition strip (s : list Z) : list Z := rev (lstrip_ws (rev (lstrip_ws s))).

(* ------------------------------------------------------------------ *)
(** ** The callbacks of the GUI ([App] in main.py lines 117-167)

    A callback is modelled by its effect on the file system, the text it
    puts in the status bar and, for decoding, the text it puts in the
    decoded-message box; the message boxes it shows are left out. The
    [Entry] fields are strings; [message_text] is what
    [self.message_txt.get("1.0", "end")] returns. *)


(** [_on_encode]. *)
Definition _on_encode (f : fs) (cover_field : string) (message_text : list Z)
  (output_field : string) : fs * string :=
  let out := if String.eqb output_field EmptyString then "stego.png"%string else output_field in
  match encode_message_to_image f (path_of_string cover_field) (strip message_text)
          (path_of_string out) with
  | (f', Ok o) => (f', String.append "Encoded -> " (str_path o))
  | (f', Err (SteganographyError _)) => (f', "Encode failed."%string)
  | (f', Err _) => (f', "Unexpected error."%string)
  end.

(** [_on_decode]: the status text and the new content of the
    decoded-message box ([None]: left as it was). *)
Definition _on_decode (f : fs) (stego_field : string) : string * option (list Z) :=
  match decode_message_from_image f (path_of_string stego_field) with
  | Ok msg => ("Decoded message displayed."%string, Some msg)
  | Err (SteganographyError _) => ("Decode failed."%string, None)
  | Err _ => ("Unexpected error."%string, None)
  end.

(* ------------------------------------------------------------------ *)
(** ** Reference definitions written from the specification *)

(** The value of a group of bits read most-significant first. *)
Definition msb_value (group : list Z) : Z := fold_left (fun acc x => 2 * acc + x) group 0.

(** Regrouping a bit sequence into bytes of 8, MSB first, dropping a trailing
    partial group. *)
Fixpoint regroup (bits : list Z) : list Z :=
  match bits with
  | x0 :: x1 :: x2 :: x3 :: x4 :: x5 :: x6 :: x7 :: rest =>
      msb_value [x0; x1; x2; x3; x4; x5; x6; x7] :: regroup rest
  | _ => []
  end.

(** The value accumulated by [b = (b << 1) | bit] over a group. *)
Definition acc_bits (b : Z) (group : list Z) : Z :=
  fold_left (fun acc bit => Z.lor (Z.shiftl acc 1) bit) group b.

(** The bytes the reader of [_fallback_decode] sees in an image. *)
Definition carrier_bytes (img : image) : list Z := _from_bits (read_rows (rows img)).

(** A channel after the writer: [(v & ~1) | bit] when a stream bit is left
    for it, [v] otherwise. *)
Definition written_channel (v : Z) (bit : option Z) : Z :=
  match bit with Some b => set_lsb v b | None => v end.

(** The writer as the specification describes it, on the pixels in
    row-major order: pixel [k] takes stream bits [3k], [3k+1], [3k+2] into
    red, green and blue; alpha is never written. *)
Fixpoint embed_spec (ps : list pixel) (bits : list Z) (k : nat) : list pixel :=
  match ps with
  | [] => []
  | p :: ps' =>
      Pixel (written_channel (red p) (nth_error bits (3 * k)))
            (written_channel (green p) (nth_error bits (3 * k + 1)))
            (written_channel (blue p) (nth_error bits (3 * k + 2)))
            (alpha p)
      :: embed_spec ps' bits (S k)
  end.

(** Two pixels that agree on all channel bits above the lowest and on alpha. *)
Definition same_high_bits (p q : pixel) : Prop :=
  Z.shiftr (red p) 1 = Z.shiftr (red q) 1 /\ Z.shiftr (green p) 1 = Z.shiftr (green q) 1 /\
  Z.shiftr (blue p) 1 = Z.shiftr (blue q) 1 /\ alpha p = alpha q.

(** A string with no ["/"]. *)
Fixpoint slash_free (s : string) : bool :=
  match s with
  | EmptyString => true
  | String c s' => negb (Ascii.eqb c "/") && slash_free s'
  end.

(** A component kept by [Path]: non-empty, not ["."], without ["/"]. *)
Definition component (x : string) : Prop :=
  x <> EmptyString /\ x <> "."%string /\ slash_free x = true.

(** A path as [Path(s)] builds it. *)
Definition normal (p : path) : Prop :=
  (anchor p = EmptyString \/ anchor p = "/"%string \/ anchor p = "//"%string) /\
  Forall component (parts p).

(** A pixel whose red, green and blue values are even. *)
Definition even_rgb (p : pixel) : Prop :=
  Z.even (red p) = true /\ Z.even (green p) = true /\ Z.even (blue p) = true.

(* ================================================================== *)
(** * Proofs *)

Ltac mod8 := Z.div_mod_to_equations; lia.

(** ** The bit codec *)

Lemma from_bits_loop_mod (l : list Z) : forall i j b,
  i mod 8 = j mod 8 -> from_bits_loop l i b = from_bits_loop l j b.
Proof.
  induction l as [| x l IH]; intros i j b Hij; [reflexivity |].
  cbn [from_bits_loop].
  assert (E : (i + 1) mod 8 = (j + 1) mod 8) by mod8.
  rewrite E. destruct ((j + 1) mod 8 =? 0); rewrite (IH (i + 1) (j + 1) _ E); reflexivity.
Qed.

(** A group of fewer than 8 bits after a byte boundary completes no byte. *)
Lemma from_bits_loop_partial (l : list Z) : forall i b,
  (i mod 8 + Z.of_nat (length l) < 8) -> from_bits_loop l i b = [].
Proof.
  induction l as [| x l IH]; intros i b H; [reflexivity |].
  cbn [from_bits_loop length] in *.
  destruct (Z.eqb_spec ((i + 1) mod 8) 0) as [E | E]; [exfalso; mod8 |].
  apply IH. mod8.
Qed.

(** A group of 8 bits after a byte boundary completes exactly one byte. *)
Lemma from_bits_loop_group (x0 x1 x2 x3 x4 x5 x6 x7 : Z) (rest : list Z) (i : Z) :
  i mod 8 = 0 ->
  from_bits_loop ([x0; x1; x2; x3; x4; x5; x6; x7] ++ rest) i 0
  = acc_bits 0 [x0; x1; x2; x3; x4; x5; x6; x7] :: from_bits_loop rest (i + 8) 0.
Proof.
  intros H. cbn [app from_bits_loop].
  repeat match goal with
  | |- context [(?e mod 8 =? 0)] =>
      let E := fresh in destruct (Z.eqb_spec (e mod 8) 0) as [E | E];
      [ try (exfalso; mod8) | try (exfalso; mod8) ]
  end.
  rewrite (from_bits_loop_mod rest (i + 1 + 1 + 1 + 1 + 1 + 1 + 1 + 1) (i + 8))
    by mod8. reflexivity.
Qed.

Lemma from_bits_group (group rest : list Z) : length group = 8%nat ->
  _from_bits (group ++ rest) = acc_bits 0 group :: _from_bits rest.
Proof.
  intros H.
  do 8 (destruct group as [| ? group]; [discriminate |]).
  destruct group; [| discriminate].
  unfold _from_bits. rewrite from_bits_loop_group by reflexivity.
  rewrite (from_bits_loop_mod rest (0 + 8) 0) by reflexivity. reflexivity.
Qed.

Lemma from_bits_partial (l : list Z) : (length l < 8)%nat -> _from_bits l = [].
Proof. intros H. apply from_bits_loop_partial. cbn. lia. Qed.

Lemma byte_bits_length (v : Z) : length (byte_bits v) = 8%nat.
Proof. reflexivity. Qed.

Lemma to_bits_length (d : list Z) : length (_to_bits d) = (8 * length d)%nat.
Proof.
  induction d as [| v d IH]; [reflexivity |].
  unfold _to_bits in *. cbn [flat_map]. rewrite length_app, IH. cbn. lia.
Qed.

Lemma to_bits_app (d e : list Z) : _to_bits (d ++ e) = _to_bits d ++ _to_bits e.
Proof. unfold _to_bits. apply flat_map_app. Qed.

(** Every byte value is read back from its 8 bits. *)
Definition bytes_roundtrip_check : bool :=
  forallb (fun n => let v := Z.of_nat n in acc_bits 0 (byte_bits v) =? v) (seq 0 256).

Lemma bytes_roundtrip_check_ok : bytes_roundtrip_check = true.
Proof. vm_compute. reflexivity. Qed.

Lemma acc_byte_bits (v : Z) : is_byte v -> acc_bits 0 (byte_bits v) = v.
Proof.
  intros Hv. pose proof bytes_roundtrip_check_ok as C.
  unfold bytes_roundtrip_check in C. rewrite forallb_forall in C.
  specialize (C (Z.to_nat v)). unfold is_byte in Hv.
  rewrite Z2Nat.id in C by lia. apply Z.eqb_eq, C, in_seq. lia.
Qed.

Lemma from_bits_to_bits_app (d rest : list Z) : Forall is_byte d ->
  _from_bits (_to_bits d ++ rest) = d ++ _from_bits rest.
Proof.
  induction d as [| v d IH]; intros Hd; [reflexivity |].
  inversion Hd as [| ? ? Hv Hd']; subst.
  unfold _to_bits in *. cbn [flat_map]. rewrite <- app_assoc.
  rewrite from_bits_group by reflexivity. rewrite acc_byte_bits by exact Hv.
  cbn. f_equal. apply IH. exact Hd'.
Qed.

Lemma from_bits_firstn (k : nat) : forall l,
  _from_bits (firstn (8 * k) l) = firstn k (_from_bits l).
Proof.
  induction k as [| k IH]; intros l; [reflexivity |].
  destruct (Nat.lt_ge_cases (length l) 8) as [Hs | Hs].
  - rewrite firstn_all2 by lia. rewrite from_bits_partial by exact Hs. reflexivity.
  - rewrite <- (firstn_skipn 8 l).
    rewrite from_bits_group by (rewrite length_firstn; lia).
    replace (8 * S k)%nat with (8 + 8 * k)%nat by lia.
    rewrite firstn_app, length_firstn, Nat.min_l by lia.
    rewrite firstn_all2 by (rewrite length_firstn; lia).
    replace (8 + 8 * k - 8)%nat with (8 * k)%nat by lia.
    rewrite from_bits_group by (rewrite length_firstn; lia).
    cbn [firstn]. f_equal. apply IH.
Qed.

Lemma from_bits_skipn (k : nat) : forall l,
  _from_bits (skipn (8 * k) l) = skipn k (_from_bits l).
Proof.
  induction k as [| k IH]; intros l; [reflexivity |].
  destruct (Nat.lt_ge_cases (length l) 8) as [Hs | Hs].
  - rewrite (from_bits_partial l Hs), skipn_nil.
    rewrite skipn_all2 by lia. reflexivity.
  - rewrite <- (firstn_skipn 8 l) at 2.
    rewrite from_bits_group by (rewrite length_firstn; lia).
    replace (8 * S k)%nat with (8 * k + 8)%nat by lia.
    rewrite <- skipn_skipn. cbn [skipn]. apply IH.
Qed.

Lemma land_1 (x : Z) : Z.land x 1 = x mod 2.
Proof.
  pose proof (Z.land_ones x 1 ltac:(lia)) as L. change (Z.ones 1) with 1 in L.
  rewrite L. reflexivity.
Qed.

Lemma lor_double_bit (a x : Z) : is_bit x -> Z.lor (Z.shiftl a 1) x = 2 * a + x.
Proof.
  rewrite Z.shiftl_mul_pow2 by lia. change (2 ^ 1) with 2.
  intros [-> | ->].
  - rewrite Z.lor_0_r. lia.
  - assert (L : Z.land (a * 2) 1 = 0) by (rewrite land_1; apply Z.mod_mul; lia).
    rewrite <- (Z.lxor_lor _ _ L), <- (Z.add_nocarry_lxor _ _ L). lia.
Qed.

Lemma acc_bits_msb (l : list Z) : Forall is_bit l -> forall b,
  acc_bits b l = fold_left (fun acc x => 2 * acc + x) l b.
Proof.
  induction l as [| x l IH]; intros Hl b; [reflexivity |].
  inversion Hl; subst. unfold acc_bits in *. cbn [fold_left].
  rewrite lor_double_bit by assumption. apply IH. assumption.
Qed.

Lemma from_bits_cons8 (x0 x1 x2 x3 x4 x5 x6 x7 : Z) (rest : list Z) :
  _from_bits (x0 :: x1 :: x2 :: x3 :: x4 :: x5 :: x6 :: x7 :: rest)
  = acc_bits 0 [x0; x1; x2; x3; x4; x5; x6; x7] :: _from_bits rest.
Proof. exact (from_bits_group [x0; x1; x2; x3; x4; x5; x6; x7] rest eq_refl). Qed.

Lemma from_bits_regroup_n (n : nat) : forall l,
  (length l <= n)%nat -> Forall is_bit l -> _from_bits l = regroup l.
Proof.
  induction n as [| n IH]; intros l Hn Hb.
  - destruct l; [reflexivity | cbn in Hn; lia].
  - do 8 (destruct l as [| ? l];
          [rewrite from_bits_partial by (cbn; lia); reflexivity |]).
    rewrite from_bits_cons8. cbn [regroup].
    do 8 (inversion Hb as [| ? ? ? Hb']; subst; clear Hb; rename Hb' into Hb).
    f_equal.
    + unfold msb_value. apply acc_bits_msb.
      repeat (apply Forall_cons; [assumption |]). apply Forall_nil.
    + apply IH; [cbn in Hn; lia | assumption].
Qed.

Lemma nth_byte_bits (v : Z) (k : nat) : (k < 8)%nat ->
  nth k (byte_bits v) 0 = Z.b2z (Z.testbit v (7 - Z.of_nat k)).
Proof.
  intros Hk.
  assert (B : forall n, 0 <= n -> Z.land (Z.shiftr v n) 1 = Z.b2z (Z.testbit v n)).
  { intros n Hn. rewrite land_1, <- Z.bit0_mod, Z.shiftr_spec by lia. reflexivity. }
  do 8 (destruct k as [| k]; [apply B; lia |]). lia.
Qed.

Lemma nth_to_bits (data : list Z) : forall j k, (j < length data)%nat -> (k < 8)%nat ->
  nth (8 * j + k) (_to_bits data) 0 = nth k (byte_bits (nth j data 0)) 0.
Proof.
  induction data as [| v data IH]; intros j k Hj Hk; [cbn in Hj; lia |].
  unfold _to_bits in *. cbn [flat_map].
  destruct j as [| j].
  - rewrite app_nth1 by (rewrite byte_bits_length; lia). reflexivity.
  - rewrite app_nth2 by (rewrite byte_bits_length; lia). rewrite byte_bits_length.
    replace (8 * S j + k - 8)%nat with (8 * j + k)%nat by lia.
    apply IH; [cbn in Hj; lia | exact Hk].
Qed.

(** C6 (bit codec): [_to_bits] emits 8 bits per byte, the [k]-th bit of byte [j] being bit
    [7 - k] of it (MSB first); [_from_bits] regroups any bit sequence into
    bytes of 8 bits MSB first, dropping a trailing partial group; hence
    [_from_bits (_to_bits data) = data], also with fewer than 8 extra bits
    appended. *)
Theorem bit_codec :
  (forall data, length (_to_bits data) = (8 * length data)%nat) /\
  (forall data j k, (j < length data)%nat -> (k < 8)%nat ->
     nth (8 * j + k) (_to_bits data) 0
     = Z.b2z (Z.testbit (nth j data 0) (7 - Z.of_nat k))) /\
  (forall bits, Forall is_bit bits -> _from_bits bits = regroup bits) /\
  (forall data, Forall is_byte data -> _from_bits (_to_bits data) = data) /\
  (forall data extra, Forall is_byte data -> (length extra < 8)%nat ->
     _from_bits (_to_bits data ++ extra) = data).
Proof.
  split; [exact to_bits_length |].
  split; [intros; rewrite nth_to_bits by assumption; apply nth_byte_bits; assumption |].
  split; [intros bits Hb; exact (from_bits_regroup_n (length bits) bits (le_n _) Hb) |].
  split.
  - intros data Hd. rewrite <- (app_nil_r (_to_bits data)).
    rewrite from_bits_to_bits_app by exact Hd. apply app_nil_r.
  - intros data extra Hd He.
    rewrite from_bits_to_bits_app by exact Hd. rewrite from_bits_partial by exact He.
    apply app_nil_r.
Qed.

(** ** The pixel writer and reader *)

Lemma set_lsb_low (v b : Z) : is_bit b -> Z.land (set_lsb v b) 1 = b.
Proof.
  intros Hb. unfold set_lsb.
  rewrite Z.land_lor_distr_l, <- Z.land_assoc.
  change (Z.land (Z.lnot 1) 1) with 0. rewrite Z.land_0_r, Z.lor_0_l.
  destruct Hb as [-> | ->]; reflexivity.
Qed.

Lemma set_lsb_high (v b : Z) : is_bit b -> Z.shiftr (set_lsb v b) 1 = Z.shiftr v 1.
Proof.
  intros Hb. unfold set_lsb.
  rewrite Z.shiftr_lor, Z.shiftr_land.
  change (Z.shiftr (Z.lnot 1) 1) with (-1). rewrite Z.land_m1_r.
  destruct Hb as [-> | ->]; apply Z.lor_0_r.
Qed.

Lemma embed_spec_shift (ps : list pixel) : forall bits k n,
  embed_spec ps bits (n + k) = embed_spec ps (skipn (3 * n) bits) k.
Proof.
  induction ps as [| p ps IH]; intros bits k n; [reflexivity |].
  cbn [embed_spec]. rewrite !nth_error_skipn.
  replace (3 * (n + k))%nat with (3 * n + 3 * k)%nat by lia.
  rewrite !Nat.add_assoc, <- IH. do 3 f_equal. lia.
Qed.

Lemma embed_spec_nil (ps : list pixel) : forall k, embed_spec ps [] k = ps.
Proof.
  induction ps as [| [r g b a] ps IH]; intros k; [reflexivity |].
  cbn. rewrite !nth_error_nil. cbn. rewrite IH. reflexivity.
Qed.

Lemma embed_spec_app (ps qs : list pixel) (bits : list Z) :
  embed_spec (ps ++ qs) bits 0
  = embed_spec ps bits 0 ++ embed_spec qs (skipn (3 * length ps) bits) 0.
Proof.
  rewrite <- (embed_spec_shift qs bits 0 (length ps)).
  generalize 0%nat as k.
  induction ps as [| p ps IH]; intros k; [reflexivity |].
  cbn [app embed_spec length]. rewrite IH. do 2 f_equal. f_equal. lia.
Qed.

Lemma embed_spec_length (ps : list pixel) : forall bits k,
  length (embed_spec ps bits k) = length ps.
Proof. induction ps; intros; cbn; [reflexivity | f_equal; apply IHps]. Qed.

Lemma write_pixel_spec (p : pixel) (it : list Z) p' it' s :
  write_pixel p it = (p', it', s) ->
  [p'] = embed_spec [p] it 0 /\
  (s = false -> (3 <= length it)%nat /\ it' = skipn 3 it) /\
  (s = true -> (length it < 3)%nat /\ it' = []).
Proof.
  destruct p as [r g b a].
  destruct it as [| x0 [| x1 [| x2 it]]]; cbn; intros E; injection E as <- <- <-;
    (split; [reflexivity | split; intros H; [discriminate H || (split; [cbn; lia | reflexivity]) |
                                             discriminate H || (split; [cbn; lia | reflexivity])]]).
Qed.

Lemma write_row_spec (row : list pixel) : forall it row' it' s,
  write_row row it = (row', it', s) ->
  row' = embed_spec row it 0 /\
  (s = false -> (3 * length row <= length it)%nat /\ it' = skipn (3 * length row) it) /\
  (s = true -> (length it < 3 * length row)%nat /\ it' = []).
Proof.
  induction row as [| p ps IH]; intros it row' it' s E.
  - cbn in E. injection E as <- <- <-.
    split; [reflexivity |]. cbn [length].
    split; intros H; [split; [lia | reflexivity] | discriminate H].
  - cbn [write_row] in E.
    destruct (write_pixel p it) as [[p1 it1] s1] eqn:Ep.
    apply write_pixel_spec in Ep as (Hp & Hf & Ht).
    replace (embed_spec (p :: ps) it 0)
      with (embed_spec [p] it 0 ++ embed_spec ps (skipn 3 it) 0)
      by (symmetry; exact (embed_spec_app [p] ps it)).
    rewrite <- Hp. cbn [length].
    destruct s1.
    + injection E as <- <- <-. destruct (Ht eq_refl) as [Hl Hit]; subst it1.
      rewrite (skipn_all2 it) by lia. rewrite embed_spec_nil.
      split; [reflexivity |]. split; intros H; [discriminate H | split; [lia | reflexivity]].
    + destruct (write_row ps it1) as [[ps1 it2] s2] eqn:Er.
      injection E as <- <- <-. destruct (Hf eq_refl) as [Hl Hit]; subst it1.
      apply IH in Er as (Hr & Hf2 & Ht2). rewrite Hr.
      split; [reflexivity |]. split; intros H.
      * destruct (Hf2 H) as [Hl2 Hit2]. rewrite length_skipn in Hl2.
        rewrite Hit2, skipn_skipn. split; [lia | f_equal; lia].
      * destruct (Ht2 H) as [Hl2 Hit2]. rewrite length_skipn in Hl2.
        split; [lia | exact Hit2].
Qed.

(** The whole double loop of [_fallback_encode] is the row-major writer. *)
Lemma write_rows_spec (rs : list (list pixel)) : forall it,
  map (@length pixel) (write_rows rs it) = map (@length pixel) rs /\
  concat (write_rows rs it) = embed_spec (concat rs) it 0.
Proof.
  induction rs as [| row rs IH]; intros it; [split; reflexivity |].
  cbn [write_rows].
  destruct (write_row row it) as [[row' it'] s] eqn:E.
  apply write_row_spec in E as (Hr & Hf & Ht).
  rewrite concat_cons, embed_spec_app, <- Hr.
  destruct s.
  - destruct (Ht eq_refl) as [Hl _].
    rewrite (skipn_all2 it) by lia.
    rewrite embed_spec_nil. cbn [map concat].
    split.
    + rewrite Hr, embed_spec_length. reflexivity.
    + reflexivity.
  - destruct (Hf eq_refl) as [Hl Hit]; subst it'.
    destruct (IH (skipn (3 * length row) it)) as [H1 H2].
    cbn [map concat]. rewrite H2, H1, Hr, embed_spec_length.
    split; reflexivity.
Qed.

Lemma read_row_length (ps : list pixel) : length (read_row ps) = (3 * length ps)%nat.
Proof.
  induction ps as [| p ps IH]; [reflexivity |].
  unfold read_row in *. cbn [flat_map]. rewrite length_app, IH. cbn. lia.
Qed.

Lemma read_row_embed (ps : list pixel) : forall bits, Forall is_bit bits ->
  read_row (embed_spec ps bits 0)
  = firstn (3 * length ps) (bits ++ skipn (length bits) (read_row ps)).
Proof.
  induction ps as [| p ps IH]; intros bits Hb; [reflexivity |].
  replace (embed_spec (p :: ps) bits 0)
    with (embed_spec [p] bits 0 ++ embed_spec ps (skipn 3 bits) 0)
    by (symmetry; exact (embed_spec_app [p] ps bits)).
  destruct p as [r g b a].
  assert (Rp : forall q qs, read_row (q :: qs) = read_pixel q ++ read_row qs) by reflexivity.
  assert (Len : forall q, length (read_row (q :: ps)) = (3 * length (q :: ps))%nat)
    by (intros; apply read_row_length).
  destruct bits as [| x0 [| x1 [| x2 bits]]];
    repeat match goal with H : Forall _ (_ :: _) |- _ => inversion H; subst; clear H end.
  - cbn [app skipn length]. rewrite !embed_spec_nil. cbn [app].
    rewrite firstn_all2; [reflexivity | rewrite Len; cbn; lia].
  - change (embed_spec [Pixel r g b a] [x0] 0) with [Pixel (set_lsb r x0) g b a].
    cbn [skipn app length]. rewrite embed_spec_nil, !Rp. cbn [read_pixel red green blue app].
    rewrite set_lsb_low by assumption.
    rewrite firstn_all2; [reflexivity | cbn; rewrite read_row_length; lia].
  - change (embed_spec [Pixel r g b a] [x0; x1] 0)
      with [Pixel (set_lsb r x0) (set_lsb g x1) b a].
    cbn [skipn app length]. rewrite embed_spec_nil, !Rp. cbn [read_pixel red green blue app].
    rewrite !set_lsb_low by assumption.
    rewrite firstn_all2; [reflexivity | cbn; rewrite read_row_length; lia].
  - change (embed_spec [Pixel r g b a] (x0 :: x1 :: x2 :: bits) 0)
      with [Pixel (set_lsb r x0) (set_lsb g x1) (set_lsb b x2) a].
    cbn [skipn app length]. rewrite !Rp. cbn [read_pixel red green blue app].
    rewrite !set_lsb_low by assumption. rewrite IH by assumption.
    replace (3 * S (length ps))%nat with (S (S (S (3 * length ps)))) by lia.
    reflexivity.
Qed.

Lemma read_rows_concat (rs : list (list pixel)) : read_rows rs = read_row (concat rs).
Proof.
  induction rs as [| row rs IH]; [reflexivity |].
  unfold read_rows, read_row in *. cbn [flat_map concat].
  rewrite flat_map_app, IH. reflexivity.
Qed.

(** Reading the written image gives the stream followed by the untouched
    low-order bits. *)
Lemma read_write_rows (rs : list (list pixel)) (bits : list Z) :
  Forall is_bit bits -> (length bits <= length (read_rows rs))%nat ->
  read_rows (write_rows rs bits) = bits ++ skipn (length bits) (read_rows rs).
Proof.
  intros Hb Hl.
  rewrite !read_rows_concat, (proj2 (write_rows_spec rs bits)), read_row_embed by exact Hb.
  rewrite read_rows_concat in Hl.
  apply firstn_all2. rewrite length_app, length_skipn, <- read_row_length. lia.
Qed.

Lemma written_channel_high (v : Z) (bits : list Z) (i : nat) : Forall is_bit bits ->
  Z.shiftr (written_channel v (nth_error bits i)) 1 = Z.shiftr v 1.
Proof.
  intros Hb. destruct (nth_error bits i) as [x |] eqn:E; [| reflexivity].
  apply set_lsb_high. rewrite Forall_forall in Hb. apply Hb. eapply nth_error_In. exact E.
Qed.

Lemma embed_spec_high (ps : list pixel) (bits : list Z) : Forall is_bit bits ->
  forall k, Forall2 same_high_bits ps (embed_spec ps bits k).
Proof.
  intros Hb. induction ps as [| p ps IH]; intros k; constructor; [| apply IH].
  unfold same_high_bits. cbn [red green blue alpha].
  rewrite !written_channel_high by exact Hb. auto.
Qed.

(** C5 (writer frame and effect): For a stream of bits, the writing loop of [_fallback_encode] keeps the
    shape of the image and, on the pixels in row-major order, gives pixel [k]
    the channels [(v & ~1) | bit] for stream bits [3k], [3k+1], [3k+2] in the
    order red, green, blue, keeping every channel with no bit left, every
    later pixel and alpha as they are; every bit above the lowest is
    unchanged. *)
Theorem write_frame_effect (rs : list (list pixel)) (bits : list Z) :
  Forall is_bit bits ->
  map (@length pixel) (write_rows rs bits) = map (@length pixel) rs /\
  concat (write_rows rs bits) = embed_spec (concat rs) bits 0 /\
  Forall2 same_high_bits (concat rs) (concat (write_rows rs bits)).
Proof.
  intros Hb. destruct (write_rows_spec rs bits) as [H1 H2].
  split; [exact H1 |]. split; [exact H2 |].
  rewrite H2. apply embed_spec_high. exact Hb.
Qed.

Lemma write_frame_effect_witness :
  Forall is_bit [1; 0; 1; 1] /\
  concat (write_rows [[Pixel 20 40 60 255; Pixel 7 8 9 10]; [Pixel 1 1 1 1]] [1; 0; 1; 1])
  = [Pixel 21 40 61 255; Pixel 7 8 9 10; Pixel 1 1 1 1].
Proof.
  assert (Hb : Forall is_bit [1; 0; 1; 1]) by (repeat constructor; unfold is_bit; lia).
  split; [exact Hb |].
  destruct (write_frame_effect [[Pixel 20 40 60 255; Pixel 7 8 9 10]; [Pixel 1 1 1 1]]
              [1; 0; 1; 1] Hb) as [_ [E _]].
  rewrite E. vm_compute. reflexivity.
Defined.

(** ** UTF-8 *)

Ltac zcase :=
  repeat (unfold in_range, is_cont, lo3, hi3, lo4, hi4;
          match goal with
          | |- context [?a =? ?b] => destruct (Z.eqb_spec a b)
          | |- context [?a <? ?b] => destruct (Z.ltb_spec a b)
          | |- context [?a <=? ?b] => destruct (Z.leb_spec a b)
          end; cbn [andb];
          try (exfalso; solve [Z.div_mod_to_equations; lia])).

Lemma utf8_char_roundtrip (cp : Z) (rest : list Z) : is_scalar cp ->
  exists bs, utf8_encode_char cp = Some bs /\ Forall is_byte bs /\
             utf8_decode (bs ++ rest) = cons_opt cp (utf8_decode rest).
Proof.
  intros [Hc Hs]. unfold is_code_point, is_surrogate in *.
  apply andb_false_iff in Hs. rewrite !Z.leb_nle in Hs.
  unfold utf8_encode_char, is_surrogate.
  destruct (Z.ltb_spec cp 0x80);
    [| destruct (Z.ltb_spec cp 0x800);
       [| destruct (Z.leb_spec 0xD800 cp), (Z.leb_spec cp 0xDFFF); try (exfalso; lia);
          cbn [andb]; destruct (Z.ltb_spec cp 0x10000)]];
    (eexists; split; [reflexivity |]);
    (split; [repeat (apply Forall_cons; [unfold is_byte; Z.div_mod_to_equations; lia |]);
             apply Forall_nil |]);
    cbn [app utf8_decode]; zcase;
    f_equal; Z.div_mod_to_equations; lia.
Qed.

Lemma utf8_roundtrip (s : list Z) : Forall is_scalar s ->
  exists data, utf8_encode s = Some data /\ Forall is_byte data /\
               utf8_decode data = Some s.
Proof.
  induction s as [| cp s IH]; intros Hs; [exists []; auto |].
  inversion Hs as [| ? ? Hcp Hs']; subst.
  destruct (IH Hs') as (data & E & Hd & D).
  destruct (utf8_char_roundtrip cp data Hcp) as (bs & Ec & Hb & Dc).
  exists (bs ++ data). cbn [utf8_encode]. rewrite Ec, E.
  split; [reflexivity |]. split; [apply Forall_app; auto |].
  rewrite Dc, D. reflexivity.
Qed.

(** ** The frame *)

Lemma to_bytes4_spec (n : Z) (lenb : list Z) : to_bytes4 n = Some lenb ->
  from_bytes lenb = n /\ Forall is_byte lenb /\ length lenb = 4%nat.
Proof.
  unfold to_bytes4. destruct (Z.leb_spec 0 n), (Z.ltb_spec n (2 ^ 32)); cbn [andb];
    intros E; try discriminate E.
  injection E as <-. change (2 ^ 32) with 4294967296 in *.
  change (2 ^ 24) with 16777216. change (2 ^ 16) with 65536. change (2 ^ 8) with 256.
  split; [| split; [| reflexivity]].
  - unfold from_bytes. cbn [fold_left]. Z.div_mod_to_equations. lia.
  - repeat (apply Forall_cons; [unfold is_byte; Z.div_mod_to_equations; lia |]).
    apply Forall_nil.
Qed.

Lemma to_bytes4_some (n : Z) : 0 <= n < 2 ^ 32 -> exists lenb, to_bytes4 n = Some lenb.
Proof.
  intros H. unfold to_bytes4.
  destruct (Z.leb_spec 0 n), (Z.ltb_spec n (2 ^ 32)); try lia. eexists. reflexivity.
Qed.

Lemma startswith_firstn (bs p : list Z) :
  startswith bs p = true <-> firstn (length p) bs = p.
Proof.
  revert bs. induction p as [| x p IH]; intros bs;
    [destruct bs; cbn; split; reflexivity |].
  destruct bs as [| c bs]; cbn; [split; discriminate |].
  rewrite andb_true_iff, Z.eqb_eq, IH. split.
  - intros [-> ->]. reflexivity.
  - intros E. injection E as -> ->. auto.
Qed.

Lemma startswith_header_firstn9 (bs : list Z) :
  startswith (firstn 9 bs) _HEADER = startswith bs _HEADER.
Proof.
  assert (N : forall l, startswith l [] = true) by (destruct l; reflexivity).
  do 5 (destruct bs as [| ? bs]; [reflexivity |]). cbn. rewrite !N. reflexivity.
Qed.

Lemma to_nat_times_8 (n : Z) : Z.to_nat (n * 8) = (8 * Z.to_nat n)%nat.
Proof.
  destruct (Z.leb_spec 0 n).
  - rewrite Z2Nat.inj_mul by lia. change (Z.to_nat 8) with 8%nat. lia.
  - destruct n; try lia; reflexivity.
Qed.

(** [_fallback_decode] on the bytes [B] read from the image: no header
    gives [""]; otherwise the body is the first [LENGTH] bytes after the 9
    header bytes, as many as there are, decoded as UTF-8 ([""] if invalid). *)
Lemma fallback_decode_image_bytes (img : image) :
  fallback_decode_image img =
  let B := carrier_bytes img in
  if startswith B _HEADER then
    match utf8_decode (firstn (Z.to_nat (from_bytes (slice B 5 9))) (skipn 9 B)) with
    | Some s => s
    | None => []
    end
  else [].
Proof.
  unfold fallback_decode_image, carrier_bytes. cbn zeta.
  set (bits := read_rows (rows img)).
  change ((5 + 4) * 8)%nat with (8 * 9)%nat.
  rewrite from_bits_firstn, startswith_header_firstn9.
  destruct (startswith (_from_bits bits) _HEADER); [cbn [negb] | reflexivity].
  assert (Hs : slice (firstn 9 (_from_bits bits)) 5 (5 + 4) = slice (_from_bits bits) 5 9).
  { unfold slice. rewrite skipn_firstn_comm, firstn_firstn. reflexivity. }
  rewrite Hs. unfold slice at 1.
  replace (8 * 9 + Z.to_nat (from_bytes (slice (_from_bits bits) 5 9) * 8) - 8 * 9)%nat
    with (8 * Z.to_nat (from_bytes (slice (_from_bits bits) 5 9)))%nat
    by (rewrite to_nat_times_8; lia).
  rewrite from_bits_firstn, from_bits_skipn. reflexivity.
Qed.

Lemma decode_message_image (f : fs) (p : path) (img : image) : f p = Some img ->
  decode_message_from_image f p =
  match fallback_decode_image img with
  | [] => Err (SteganographyError NoHiddenMessage)
  | s => Ok s
  end.
Proof.
  intros E. unfold decode_message_from_image, _fallback_decode. rewrite E.
  destruct (fallback_decode_image img); reflexivity.
Qed.

Lemma to_bits_bits (d : list Z) : Forall is_bit (_to_bits d).
Proof.
  unfold _to_bits. induction d as [| v d IH]; [constructor |].
  cbn [flat_map]. apply Forall_app. split; [| exact IH].
  unfold byte_bits. apply Forall_forall. intros x Hx. apply in_map_iff in Hx as (i & <- & _).
  rewrite land_1. unfold is_bit.
  pose proof (Z.mod_pos_bound (Z.shiftr v (7 - i)) 2 ltac:(lia)). lia.
Qed.

Lemma header_bytes : Forall is_byte _HEADER.
Proof. repeat (apply Forall_cons; [unfold is_byte; lia |]). apply Forall_nil. Qed.

Lemma concat_length_uniform (rs : list (list pixel)) (w : nat) :
  Forall (fun row => length row = w) rs -> length (concat rs) = (length rs * w)%nat.
Proof.
  induction 1 as [| row rs Hr _ IH]; [reflexivity |].
  rewrite concat_cons, length_app, IH, Hr. cbn. lia.
Qed.

Lemma read_rows_length (img : image) : well_formed img ->
  length (read_rows (rows img)) = capacity img.
Proof.
  intros [Hh Hw]. rewrite read_rows_concat, read_row_length, (concat_length_uniform _ _ Hw), Hh.
  unfold capacity. lia.
Qed.

Lemma payload_spec (message frame : list Z) : payload message = Ok frame ->
  exists data lenb, utf8_encode message = Some data /\
    to_bytes4 (Z.of_nat (length data)) = Some lenb /\ frame = _HEADER ++ lenb ++ data.
Proof.
  unfold payload. destruct (utf8_encode message) as [data |]; [| discriminate].
  destruct (to_bytes4 _) as [lenb |] eqn:E; [| discriminate].
  intros H. injection H as <-. eauto.
Qed.

Lemma ensure_png_ok (p : path) : name p <> EmptyString -> exists q, ensure_png p = Ok q.
Proof.
  intros Hn. unfold ensure_png, with_suffix.
  destruct (negb _); [| eauto].
  destruct (String.eqb_spec (name p) EmptyString); [contradiction | eauto].
Qed.

Lemma save_same (f : fs) (p : path) (img : image) : save f p img p = Some img.
Proof. unfold save. destruct (path_eq_dec p p); [reflexivity | contradiction]. Qed.

(** What the decoder sees in a carrier whose byte stream starts with a
    frame produced by [payload]. *)
Lemma decode_framed (img : image) (message data lenb rest : list Z) :
  utf8_encode message = Some data ->
  to_bytes4 (Z.of_nat (length data)) = Some lenb ->
  carrier_bytes img = (_HEADER ++ lenb ++ data) ++ rest ->
  Forall is_scalar message ->
  fallback_decode_image img = message.
Proof.
  intros Ee El Eb Hs.
  destruct (utf8_roundtrip message Hs) as (data' & Ee' & Hd & Dd).
  rewrite Ee in Ee'. injection Ee' as <-.
  destruct (to_bytes4_spec _ _ El) as (Hl & _ & Hl4).
  rewrite fallback_decode_image_bytes. cbn zeta. rewrite Eb.
  assert (Hst : startswith ((_HEADER ++ lenb ++ data) ++ rest) _HEADER = true).
  { apply startswith_firstn. rewrite <- app_assoc, firstn_app. cbn. reflexivity. }
  rewrite Hst.
  assert (Hsl : slice ((_HEADER ++ lenb ++ data) ++ rest) 5 9 = lenb).
  { unfold slice. rewrite <- !app_assoc. cbn [Nat.sub].
    change (skipn 5 (_HEADER ++ lenb ++ data ++ rest)) with (lenb ++ data ++ rest).
    rewrite firstn_app, Hl4, firstn_all2 by lia. cbn. apply app_nil_r. }
  rewrite Hsl, Hl, Nat2Z.id.
  assert (Hsk : skipn 9 ((_HEADER ++ lenb ++ data) ++ rest) = data ++ rest).
  { rewrite <- !app_assoc.
    change (skipn 9 (_HEADER ++ lenb ++ data ++ rest)) with (skipn 4 (lenb ++ data ++ rest)).
    rewrite skipn_app, (skipn_all2 lenb) by lia. rewrite Hl4. reflexivity. }
  rewrite Hsk, firstn_app, firstn_all, Nat.sub_diag. cbn [firstn].
  rewrite app_nil_r, Dd. reflexivity.
Qed.

Lemma encode_scalars (s data : list Z) : Forall is_code_point s ->
  utf8_encode s = Some data -> Forall is_scalar s.
Proof.
  revert data. induction s as [| cp s IH]; intros data Hs E; [constructor |].
  inversion Hs as [| ? ? Hc Hs']; subst. cbn [utf8_encode] in E.
  destruct (utf8_encode_char cp) as [bs |] eqn:Ec; [| discriminate].
  destruct (utf8_encode s) as [d |] eqn:Ed; [| discriminate].
  constructor; [| exact (IH d Hs' eq_refl)].
  split; [exact Hc |]. unfold utf8_encode_char, is_surrogate in *.
  destruct (Z.ltb_spec cp 0x80), (Z.ltb_spec cp 0x800); try (apply andb_false_iff; left;
    apply Z.leb_nle; lia).
  destruct ((0xD800 <=? cp) && (cp <=? 0xDFFF)); [discriminate | reflexivity].
Qed.

Lemma payload_bytes (message frame : list Z) : Forall is_code_point message ->
  payload message = Ok frame -> Forall is_byte frame.
Proof.
  intros Hm Hp. destruct (payload_spec _ _ Hp) as (data & lenb & Ee & El & ->).
  destruct (utf8_roundtrip message (encode_scalars _ _ Hm Ee)) as (data' & Ee' & Hd & _).
  rewrite Ee in Ee'. injection Ee' as <-.
  destruct (to_bytes4_spec _ _ El) as (_ & Hl & _).
  apply Forall_app; split; [exact header_bytes | apply Forall_app; auto].
Qed.

(** The image [_fallback_encode] saves, when the stream fits. *)
Lemma fallback_encode_saves (f : fs) (cover out : path) (c : image) (message frame : list Z) :
  f cover = Some c -> payload message = Ok frame ->
  (8 * length frame <= capacity c)%nat ->
  _fallback_encode f cover message out
  = (save f out (Image (width c) (height c) (write_rows (rows c) (_to_bits frame))), Ok tt).
Proof.
  intros Hc Hp Hcap. unfold _fallback_encode. rewrite Hc, Hp, to_bits_length.
  destruct (Nat.ltb_spec (capacity c) (8 * length frame)); [lia | reflexivity].
Qed.

Lemma written_carrier_bytes (c : image) (message frame : list Z) :
  well_formed c -> Forall is_code_point message -> payload message = Ok frame ->
  (8 * length frame <= capacity c)%nat ->
  exists rest, carrier_bytes (Image (width c) (height c) (write_rows (rows c) (_to_bits frame)))
               = frame ++ rest.
Proof.
  intros Hw Hm Hp Hcap. unfold carrier_bytes. cbn [rows].
  rewrite read_write_rows.
  - eexists. apply from_bits_to_bits_app. exact (payload_bytes _ _ Hm Hp).
  - apply to_bits_bits.
  - rewrite read_rows_length, to_bits_length by exact Hw. exact Hcap.
Qed.

(** C1 (round trip): For a well-formed cover image [c] and a non-empty message whose frame
    ([_HEADER], the 4-byte length and the UTF-8 bytes) fits,
    [8 * len(frame) <= width * height * 3], encoding succeeds and decoding
    the written image returns the message. *)
Theorem roundtrip (f : fs) (cover out : path) (c : image) (message frame : list Z) :
  f cover = Some c -> well_formed c ->
  Forall is_code_point message -> message <> [] ->
  payload message = Ok frame -> (8 * length frame <= capacity c)%nat ->
  name out <> EmptyString ->
  match encode_message_to_image f cover message out with
  | (f', Ok out') => decode_message_from_image f' out' = Ok message
  | (_, Err _) => False
  end.
Proof.
  intros Hc Hw Hm Hne Hp Hcap Hn.
  destruct (ensure_png_ok out Hn) as [q Eq].
  unfold encode_message_to_image. rewrite Hc.
  destruct message as [| m ms] eqn:Em; [contradiction |]. rewrite <- Em in *. rewrite Eq.
  rewrite (fallback_encode_saves f cover q c message frame Hc Hp Hcap).
  rewrite (decode_message_image _ _ _ (save_same _ _ _)).
  destruct (written_carrier_bytes c message frame Hw Hm Hp Hcap) as [rest Er].
  destruct (payload_spec _ _ Hp) as (data & lenb & Ee & El & Ef). subst frame.
  rewrite (decode_framed _ message data lenb rest Ee El Er (encode_scalars _ _ Hm Ee)).
  rewrite Em. reflexivity.
Qed.

Lemma roundtrip_witness :
  let c := Image 6 5 (repeat (repeat (Pixel 20 40 60 255) 6) 5) in
  let f : fs := fun q => if path_eq_dec q (Path "" ["cover.png"%string]) then Some c else None in
  match encode_message_to_image f (Path "" ["cover.png"%string]) [65] (Path "" ["out.jpg"%string]) with
  | (f', Ok out') => decode_message_from_image f' out' = Ok [65]
  | (_, Err _) => False
  end.
Proof.
  intros c f.
  apply (roundtrip f (Path "" ["cover.png"%string]) (Path "" ["out.jpg"%string]) c [65]
           (_HEADER ++ [0; 0; 0; 1] ++ [65])).
  - reflexivity.
  - split; [reflexivity | repeat constructor].
  - repeat constructor; unfold is_code_point; lia.
  - discriminate.
  - reflexivity.
  - vm_compute. lia.
  - discriminate.
Defined.

(** ** Decoding outcomes *)

(** C2 (decoding outcome, as the code does it): Decoding a stored image fails with the no-message error when its byte
    stream [B] does not start with [_HEADER]; otherwise, with [LENGTH] the
    big-endian value of [B[5:9]], the body is the first [LENGTH] bytes after
    the header, cut short without any check when the image holds fewer, and
    decoding returns it as UTF-8 text when it is valid and non-empty, and
    fails with the no-message error otherwise. *)
Theorem decode_outcome (f : fs) (p : path) (img : image) :
  f p = Some img ->
  let B := carrier_bytes img in
  let body := firstn (Z.to_nat (from_bytes (slice B 5 9))) (skipn 9 B) in
  length body = Nat.min (Z.to_nat (from_bytes (slice B 5 9))) (length B - 9) /\
  decode_message_from_image f p =
  if startswith B _HEADER then
    match utf8_decode body with
    | Some (c :: cs) => Ok (c :: cs)
    | _ => Err (SteganographyError NoHiddenMessage)
    end
  else Err (SteganographyError NoHiddenMessage).
Proof.
  intros E B body. split.
  - unfold body. rewrite length_firstn, length_skipn. reflexivity.
  - rewrite (decode_message_image f p img E), fallback_decode_image_bytes.
    cbn zeta. fold B. fold body.
    destruct (startswith B _HEADER); [| reflexivity].
    destruct (utf8_decode body) as [[| c cs] |]; reflexivity.
Qed.

Lemma decode_outcome_witness :
  let img := Image 1 1 [[Pixel 0 0 0 255]] in
  (fun _ : path => Some img) (Path "" ["a.png"%string]) = Some img /\
  decode_message_from_image (fun _ => Some img) (Path "" ["a.png"%string])
  = Err (SteganographyError NoHiddenMessage).
Proof.
  intros img. split; [reflexivity |].
  destruct (decode_outcome (fun _ => Some img) (Path "" ["a.png"%string]) img eq_refl)
    as [_ E].
  rewrite E. vm_compute. reflexivity.
Defined.

(** A carrier with a valid header declaring 100 body bytes, of which it
    holds one ([65], the text ["A"]). *)
Definition truncated_carrier : image :=
  Image 27 1 (write_rows [repeat (Pixel 0 0 0 255) 27]
                         (_to_bits (_HEADER ++ [0; 0; 0; 100] ++ [65]))).

(** C2 fails: the truncated carrier decodes to ["A"] instead of failing. *)
Lemma decode_truncated_carrier :
  decode_message_from_image (fun _ => Some truncated_carrier) (Path "" ["stego.png"%string])
  = Ok [65].
Proof. vm_compute. reflexivity. Qed.

(** C9 (no empty message): Decoding never returns the empty text; in particular a carrier with a
    valid header and a declared length of 0, or whose body is not valid
    UTF-8, gives the no-message error. *)
Theorem decode_never_empty (f : fs) (p : path) (img : image) :
  f p = Some img ->
  let B := carrier_bytes img in
  let L := from_bytes (slice B 5 9) in
  let body := firstn (Z.to_nat L) (skipn 9 B) in
  (forall s, decode_message_from_image f p = Ok s -> s <> []) /\
  (startswith B _HEADER = true -> L = 0 \/ utf8_decode body = None ->
   decode_message_from_image f p = Err (SteganographyError NoHiddenMessage)).
Proof.
  intros E B L body.
  rewrite (decode_message_image f p img E), fallback_decode_image_bytes. cbn zeta.
  fold B L body. split.
  - intros s. destruct (startswith B _HEADER); [| discriminate].
    destruct (utf8_decode body) as [[| c cs] |]; intros H; try discriminate H.
    injection H as <-. discriminate.
  - intros Hh Hb. rewrite Hh.
    destruct Hb as [HL | Hd].
    + unfold body. rewrite HL. reflexivity.
    + rewrite Hd. reflexivity.
Qed.

(** The carrier written for ["ab"] with its length field set to 0. *)
Definition zero_length_carrier : image :=
  Image 30 1 (write_rows [repeat (Pixel 0 0 0 255) 30]
                         (_to_bits (_HEADER ++ [0; 0; 0; 0] ++ [97; 98]))).

Lemma decode_never_empty_witness :
  startswith (carrier_bytes zero_length_carrier) _HEADER = true /\
  decode_message_from_image (fun _ => Some zero_length_carrier) (Path "" ["z.png"%string])
  = Err (SteganographyError NoHiddenMessage).
Proof.
  assert (Hh : startswith (carrier_bytes zero_length_carrier) _HEADER = true)
    by (vm_compute; reflexivity).
  split; [exact Hh |].
  apply (proj2 (decode_never_empty (fun _ => Some zero_length_carrier) (Path "" ["z.png"%string])
           zero_length_carrier eq_refl) Hh).
  left. vm_compute. reflexivity.
Defined.

(** ** Encoding outcomes *)

Lemma frame_length_min (message frame : list Z) : payload message = Ok frame ->
  (9 <= length frame)%nat.
Proof.
  intros Hp. destruct (payload_spec _ _ Hp) as (data & lenb & _ & El & ->).
  destruct (to_bytes4_spec _ _ El) as (_ & _ & Hl).
  rewrite !length_app, Hl. cbn. lia.
Qed.

(** The steps of [encode_message_to_image] before [_fallback_encode]. *)
Lemma encode_unfold (f : fs) (cover out q : path) (c : image) (message : list Z) :
  f cover = Some c -> message <> [] -> ensure_png out = Ok q ->
  encode_message_to_image f cover message out =
  match _fallback_encode f cover message q with
  | (f', Ok _) => (f', Ok q)
  | (f', Err e) => (f', Err e)
  end.
Proof.
  intros Hc Hne Eq. unfold encode_message_to_image. rewrite Hc.
  destruct message as [| m ms]; [contradiction |]. rewrite Eq. reflexivity.
Qed.

Lemma encode_too_large (f : fs) (cover out : path) (c : image) (message frame : list Z) :
  f cover = Some c -> message <> [] -> payload message = Ok frame ->
  name out <> EmptyString -> (capacity c < 8 * length frame)%nat ->
  encode_message_to_image f cover message out = (f, Err (SteganographyError TooLarge)).
Proof.
  intros Hc Hne Hp Hn Hlt. destruct (ensure_png_ok out Hn) as [q Eq].
  rewrite (encode_unfold f cover out q c message Hc Hne Eq).
  unfold _fallback_encode. rewrite Hc, Hp, to_bits_length.
  destruct (Nat.ltb_spec (capacity c) (8 * length frame)); [reflexivity | lia].
Qed.

(** C3 (capacity boundary): The capacity is [width * height * 3]; a message whose frame bit stream
    has exactly that length is encoded (the image is written at the PNG
    path), and one whose stream is longer fails with the "too large" error,
    leaving the file system unchanged. *)
Theorem capacity_boundary (f : fs) (cover out : path) (c : image) (message frame : list Z) :
  f cover = Some c -> message <> [] -> payload message = Ok frame ->
  name out <> EmptyString ->
  capacity c = (width c * height c * 3)%nat /\
  ((8 * length frame)%nat = capacity c ->
   exists q, ensure_png out = Ok q /\
     encode_message_to_image f cover message out
     = (save f q (Image (width c) (height c) (write_rows (rows c) (_to_bits frame))), Ok q)) /\
  ((capacity c < 8 * length frame)%nat ->
   encode_message_to_image f cover message out = (f, Err (SteganographyError TooLarge))).
Proof.
  intros Hc Hne Hp Hn. split; [reflexivity |]. split.
  - intros Heq. destruct (ensure_png_ok out Hn) as [q Eq]. exists q. split; [exact Eq |].
    rewrite (encode_unfold f cover out q c message Hc Hne Eq).
    rewrite (fallback_encode_saves f cover q c message frame Hc Hp) by lia. reflexivity.
  - apply (encode_too_large f cover out c message frame Hc Hne Hp Hn).
Qed.

Definition cover_path : path := Path "" ["cover.png"%string].
Definition out_path : path := Path "" ["out.png"%string].

(** An 8 x 4 image: 96 bits, the frame of a 3-byte message. *)
Definition cover_8x4 : image := Image 8 4 (repeat (repeat (Pixel 20 40 60 255) 8) 4).
Definition fs_8x4 : fs := fun q => if path_eq_dec q cover_path then Some cover_8x4 else None.

Lemma capacity_boundary_witness :
  capacity cover_8x4 = 96%nat /\
  exists q, ensure_png out_path = Ok q /\
    encode_message_to_image fs_8x4 cover_path [65; 66; 67] out_path
    = (save fs_8x4 q (Image 8 4 (write_rows (rows cover_8x4)
                                   (_to_bits (_HEADER ++ [0; 0; 0; 3] ++ [65; 66; 67])))),
       Ok q).
Proof.
  destruct (capacity_boundary fs_8x4 cover_path out_path cover_8x4 [65; 66; 67]
              (_HEADER ++ [0; 0; 0; 3] ++ [65; 66; 67]) eq_refl ltac:(discriminate)
              eq_refl ltac:(discriminate)) as [H1 [H2 _]].
  split; [rewrite H1; reflexivity |].
  apply H2. vm_compute. reflexivity.
Defined.

(** C4 (atomicity): [encode_message_to_image] writes nothing when it fails; when it
    succeeds, it has saved exactly one image, at the returned path, and that
    image carries the whole frame: the stream fits and, for a well-formed
    cover, its low-order bits start with the whole frame bit stream. *)
Theorem embed_atomic (f : fs) (cover out : path) (message : list Z) f' r :
  encode_message_to_image f cover message out = (f', r) ->
  (forall e, r = Err e -> f' = f) /\
  (forall q, r = Ok q ->
   exists c frame, f cover = Some c /\ payload message = Ok frame /\
     (8 * length frame <= capacity c)%nat /\
     f' = save f q (Image (width c) (height c) (write_rows (rows c) (_to_bits frame))) /\
     (well_formed c -> exists rest,
        read_rows (write_rows (rows c) (_to_bits frame)) = _to_bits frame ++ rest)).
Proof.
  unfold encode_message_to_image.
  destruct (f cover) as [c |] eqn:Hc;
    [| intros E; injection E as <- <-; split; [auto | discriminate]].
  destruct message as [| m ms];
    [intros E; injection E as <- <-; split; [auto | discriminate] |].
  destruct (ensure_png out) as [q |] eqn:Eq;
    [| intros E; injection E as <- <-; split; [auto | discriminate]].
  unfold _fallback_encode. rewrite Hc.
  destruct (payload (m :: ms)) as [frame | e] eqn:Hp;
    [| intros E; injection E as <- <-; split; [auto | discriminate]].
  destruct (Nat.ltb_spec (capacity c) (length (_to_bits frame)));
    intros E; injection E as <- <-; split; try discriminate; auto.
  intros q' Hq. injection Hq as <-.
  exists c, frame. rewrite to_bits_length in *.
  split; [reflexivity |]. split; [reflexivity |]. split; [lia |]. split; [reflexivity |].
  intros Hw. eexists. apply read_write_rows; [apply to_bits_bits |].
  rewrite read_rows_length, to_bits_length by exact Hw. lia.
Qed.

(** A 2 x 2 image: 12 bits, too few for any frame. *)
Definition cover_2x2 : image := Image 2 2 (repeat (repeat (Pixel 1 2 3 4) 2) 2).
Definition fs_2x2 : fs := fun q => if path_eq_dec q cover_path then Some cover_2x2 else None.

Lemma embed_atomic_witness :
  snd (encode_message_to_image fs_2x2 cover_path [65] out_path)
  = Err (SteganographyError TooLarge) /\
  fst (encode_message_to_image fs_2x2 cover_path [65] out_path) = fs_2x2.
Proof.
  assert (Hr : snd (encode_message_to_image fs_2x2 cover_path [65] out_path)
               = Err (SteganographyError TooLarge)) by (vm_compute; reflexivity).
  split; [exact Hr |].
  exact (proj1 (embed_atomic fs_2x2 cover_path out_path [65] _ _ (surjective_pairing _)) _ Hr).
Defined.

(** C8 (empty message): For every existing cover, encoding the empty message fails with
    "Message must not be empty", before anything is written. *)
Theorem empty_message_rejected (f : fs) (cover out : path) (c : image) :
  f cover = Some c ->
  encode_message_to_image f cover [] out = (f, Err (SteganographyError EmptyMessage)).
Proof. intros Hc. unfold encode_message_to_image. rewrite Hc. reflexivity. Qed.

Lemma empty_message_rejected_witness :
  encode_message_to_image fs_8x4 cover_path [] out_path
  = (fs_8x4, Err (SteganographyError EmptyMessage)).
Proof. apply (empty_message_rejected fs_8x4 cover_path out_path cover_8x4). reflexivity. Defined.

(** ** Output paths *)

Lemma string_length_append (s t : string) :
  String.length (String.append s t) = (String.length s + String.length t)%nat.
Proof. induction s as [| c s IH]; cbn; [reflexivity | rewrite IH; reflexivity]. Qed.

Lemma rfind_dot_from_append (s t : string) : forall i acc,
  rfind_dot_from (String.append s t) i acc
  = rfind_dot_from t (i + String.length s) (rfind_dot_from s i acc).
Proof.
  induction s as [| c s IH]; intros i acc; cbn [String.append rfind_dot_from String.length].
  - rewrite Nat.add_0_r. reflexivity.
  - rewrite IH. f_equal. lia.
Qed.

Lemma substring_append (s t : string) (m : nat) :
  substring (String.length s) m (String.append s t) = substring 0 m t.
Proof. induction s as [| c s IH]; [reflexivity | exact IH]. Qed.

Lemma substring_length (s : string) : forall i m,
  (i + m <= String.length s)%nat -> String.length (substring i m s) = m.
Proof.
  induction s as [| c s IH]; intros i m H.
  - cbn in H. assert (i = 0%nat /\ m = 0%nat) as [-> ->] by lia. reflexivity.
  - destruct i as [| i], m as [| m]; cbn in *; try reflexivity;
      try (rewrite IH by lia; reflexivity); apply IH; lia.
Qed.

(** A last component [s ++ ".png"] with [s] non-empty has the suffix
    [".png"]. *)
Lemma suffix_png_name (q : path) (s : string) :
  s <> EmptyString -> name q = String.append s ".png" -> suffix q = ".png"%string.
Proof.
  intros Hs Hn. unfold suffix. rewrite Hn. unfold rfind_dot.
  rewrite rfind_dot_from_append. cbn [rfind_dot_from Ascii.eqb Bool.eqb].
  rewrite string_length_append. cbn [String.length].
  destruct s as [| c s']; [contradiction |].
  cbn [String.length]. rewrite Nat.add_0_l.
  destruct (Nat.ltb_spec 0 (S (String.length s'))); [| lia].
  destruct (Nat.ltb_spec (S (String.length s')) (S (String.length s') + 4 - 1)); [| lia].
  cbn [andb]. replace (S (String.length s') + 4 - S (String.length s'))%nat with 4%nat by lia.
  change (S (String.length s')) with (String.length (String c s')).
  rewrite substring_append. reflexivity.
Qed.

Lemma suffix_cases (p : path) :
  suffix p = EmptyString \/
  exists i, (0 < i < String.length (name p) - 1)%nat /\
            suffix p = substring i (String.length (name p) - i) (name p).
Proof.
  unfold suffix. destruct (rfind_dot (name p)) as [i |]; [| left; reflexivity].
  destruct (Nat.ltb_spec 0 i), (Nat.ltb_spec i (String.length (name p) - 1)); cbn [andb];
    try (left; reflexivity).
  right. exists i. split; [lia | reflexivity].
Qed.

(** [with_suffix p ".png"] on a path with a name ends in [".png"]. *)
Lemma with_suffix_png (p q : path) : with_suffix p ".png" = Ok q -> suffix q = ".png"%string.
Proof.
  unfold with_suffix. destruct (String.eqb_spec (name p) EmptyString) as [| Hn];
    [discriminate |].
  intros E. injection E as <-.
  destruct (String.eqb_spec (suffix p) EmptyString) as [Ho | Ho].
  - apply (suffix_png_name _ (name p) Hn). unfold name. cbn [parts]. apply last_last.
  - apply (suffix_png_name _ (substring 0 (String.length (name p) - String.length (suffix p))
                                          (name p))).
    + destruct (suffix_cases p) as [| (i & Hi & Hs)]; [contradiction |].
      rewrite Hs, substring_length by lia.
      intros Hz. apply (f_equal String.length) in Hz.
      rewrite substring_length in Hz by lia. cbn in Hz. lia.
    + unfold name at 1. cbn [parts]. apply last_last.
Qed.

Lemma encode_ok_saves (f : fs) (cover out q : path) (message : list Z) f' :
  encode_message_to_image f cover message out = (f', Ok q) ->
  ensure_png out = Ok q /\ f' q <> None.
Proof.
  unfold encode_message_to_image.
  destruct (f cover) as [c |]; [| discriminate].
  destruct message as [| m ms]; [discriminate |].
  destruct (ensure_png out) as [q' |]; [| discriminate].
  unfold _fallback_encode.
  destruct (f cover) as [c' |]; [| discriminate].
  destruct (payload (m :: ms)) as [frame |]; [| discriminate].
  destruct (Nat.ltb (capacity c') (length (_to_bits frame))); [discriminate |].
  intros E. injection E as <- <-. split; [reflexivity |]. rewrite save_same. discriminate.
Qed.

Lemma ensure_png_empty_name (p : path) : name p = EmptyString -> ensure_png p = Err ValueError.
Proof.
  intros Hn. unfold ensure_png.
  assert (Hs : suffix p = EmptyString) by (unfold suffix; rewrite Hn; reflexivity).
  rewrite Hs. cbn [lower String.eqb negb]. unfold with_suffix. rewrite Hn. reflexivity.
Qed.

(** C10 fails: a path with an empty name, such as ["/"], makes [ensure_png]
    raise [ValueError], and so the encoder. *)
Lemma root_output_path :
  ensure_png (Path "/" []) = Err ValueError /\
  encode_message_to_image fs_8x4 cover_path [65] (Path "/" []) = (fs_8x4, Err ValueError).
Proof. split; vm_compute; reflexivity. Qed.

(** C10 (as amended): For an output path with an empty name (["/"], ["."]),
    [ensure_png] raises [ValueError], and encoding with an existing cover and
    a non-empty message fails with it, writing nothing. For an output path
    with a non-empty name, [ensure_png] returns a path whose suffix is
    [".png"] up to case: the path itself when its suffix is [".png"] in any
    case, otherwise [with_suffix(".png")] of it; a successful encoding
    returns that path and has written an image there. *)
Theorem ensure_png_output (p : path) :
  (name p = EmptyString ->
     ensure_png p = Err ValueError /\
     forall (f : fs) (cover : path) (c : image) (message : list Z),
       f cover = Some c -> message <> [] ->
       encode_message_to_image f cover message p = (f, Err ValueError)) /\
  (name p <> EmptyString ->
  exists q, ensure_png p = Ok q /\ lower (suffix q) = ".png"%string /\
    (lower (suffix p) = ".png"%string -> q = p) /\
    (lower (suffix p) <> ".png"%string -> with_suffix p ".png" = Ok q) /\
    (forall f cover message f' out',
       encode_message_to_image f cover message p = (f', Ok out') -> out' = q /\ f' q <> None)).
Proof.
  split.
  { intros Hn. pose proof (ensure_png_empty_name p Hn) as He. split; [exact He |].
    intros f cover c message Hc Hm. unfold encode_message_to_image. rewrite Hc.
    destruct message as [| x m]; [contradiction |]. rewrite He. reflexivity. }
  intros Hn. destruct (ensure_png_ok p Hn) as [q Eq]. exists q.
  split; [exact Eq |].
  assert (Hq : lower (suffix q) = ".png"%string /\
               (lower (suffix p) = ".png"%string -> q = p) /\
               (lower (suffix p) <> ".png"%string -> with_suffix p ".png" = Ok q)).
  { unfold ensure_png in Eq.
    destruct (String.eqb_spec (lower (suffix p)) ".png") as [Hs | Hs]; cbn [negb] in Eq.
    - injection Eq as <-. split; [exact Hs |]. split; [reflexivity | contradiction].
    - rewrite (with_suffix_png p q Eq). split; [reflexivity |].
      split; [contradiction | intros _; exact Eq]. }
  destruct Hq as (H1 & H2 & H3). split; [exact H1 |]. split; [exact H2 |]. split; [exact H3 |].
  intros f cover message f' out' E.
  destruct (encode_ok_saves f cover p out' message f' E) as [Eq' Hs].
  rewrite Eq in Eq'. injection Eq' as <-. split; [reflexivity | exact Hs].
Qed.

Lemma ensure_png_output_witness :
  encode_message_to_image fs_8x4 cover_path [65] (Path "/" []) = (fs_8x4, Err ValueError) /\
  ensure_png (Path "" ["photo.jpg"%string]) = Ok (Path "" ["photo.png"%string]) /\
  lower (suffix (Path "" ["photo.png"%string])) = ".png"%string.
Proof.
  split.
  { destruct (proj1 (ensure_png_output (Path "/" [])) eq_refl) as [_ H].
    exact (H fs_8x4 cover_path cover_8x4 [65] eq_refl ltac:(discriminate)). }
  destruct (proj2 (ensure_png_output (Path "" ["photo.jpg"%string])) ltac:(discriminate))
    as (q & Eq & Hs & _).
  assert (E : q = Path "" ["photo.png"%string])
    by (vm_compute in Eq; injection Eq as <-; reflexivity).
  rewrite E in Eq, Hs. split; assumption.
Defined.

(* ================================================================== *)
(** * Further properties of the code *)

(** ** Paths as strings *)

Lemma string_append_assoc (a b c : string) :
  String.append (String.append a b) c = String.append a (String.append b c).
Proof. induction a as [| x a IH]; cbn; [reflexivity | rewrite IH; reflexivity]. Qed.

Lemma string_append_nil_r (a : string) : String.append a EmptyString = a.
Proof. induction a as [| x a IH]; cbn; [reflexivity | rewrite IH; reflexivity]. Qed.

Lemma split_slash_from_append (x s cur : string) : slash_free x = true ->
  split_slash_from (String.append x s) cur = split_slash_from s (String.append cur x).
Proof.
  revert cur. induction x as [| c x IH]; intros cur Hx.
  - cbn. rewrite string_append_nil_r. reflexivity.
  - cbn [slash_free] in Hx. apply andb_true_iff in Hx as [Hc Hx].
    cbn [String.append split_slash_from]. apply negb_true_iff in Hc. rewrite Hc.
    rewrite IH by exact Hx. rewrite string_append_assoc. reflexivity.
Qed.

Lemma split_join (l : list string) : l <> [] -> Forall (fun x => slash_free x = true) l ->
  split_slash (join_slash l) = l.
Proof.
  induction l as [| x l IH]; intros Hne Hl; [contradiction |].
  inversion Hl as [| ? ? Hx Hl']; subst.
  destruct l as [| y l].
  - cbn [join_slash]. unfold split_slash.
    rewrite <- (string_append_nil_r x) at 1. rewrite split_slash_from_append by exact Hx.
    reflexivity.
  - change (join_slash (x :: y :: l)) with (String.append x (String "/" (join_slash (y :: l)))).
    unfold split_slash. rewrite split_slash_from_append by exact Hx. cbn [split_slash_from Ascii.eqb Bool.eqb].
    f_equal. apply IH; [discriminate | exact Hl'].
Qed.

Lemma filter_components (l : list string) : Forall component l ->
  filter (fun x => negb (String.eqb x EmptyString) && negb (String.eqb x ".")) l = l.
Proof.
  induction 1 as [| x l (Hx1 & Hx2 & _) _ IH]; [reflexivity |].
  cbn [filter]. destruct (String.eqb_spec x EmptyString); [contradiction |].
  destruct (String.eqb_spec x "."); [contradiction |]. cbn. rewrite IH. reflexivity.
Qed.

(** The rendering of a non-empty list of components starts with a
    character other than ["/"]. *)
Lemma join_head (l : list string) : Forall component l -> l <> [] ->
  exists c s, join_slash l = String c s /\ Ascii.eqb c "/" = false.
Proof.
  intros Hl Hne. destruct l as [| x l]; [contradiction |].
  inversion Hl as [| ? ? (Hx1 & _ & Hx3) _]; subst.
  destruct x as [| c x]; [contradiction |].
  cbn [slash_free] in Hx3. apply andb_true_iff in Hx3 as [Hc _]. apply negb_true_iff in Hc.
  destruct l; cbn [join_slash String.append]; eauto.
Qed.

Lemma components_slash_free (l : list string) : Forall component l ->
  Forall (fun x => slash_free x = true) l.
Proof. apply Forall_impl. intros x (_ & _ & H). exact H. Qed.

(** [Path(str(p)) == p] for a path built by [Path]. *)
Lemma parse_render (p : path) : normal p -> path_of_string (str_path p) = p.
Proof.
  destruct p as [a l]. intros [Ha Hl]. cbn [anchor parts] in *.
  unfold str_path. cbn [anchor parts].
  destruct l as [| x r].
  - destruct Ha as [-> | [-> | ->]]; reflexivity.
  - destruct (join_head (x :: r) Hl ltac:(discriminate)) as (c & s & Ej & Hc).
    pose proof (split_join (x :: r) ltac:(discriminate) (components_slash_free _ Hl)) as Hs.
    rewrite Ej in Hs.
    destruct Ha as [-> | [-> | ->]]; cbn [String.append]; rewrite Ej; cbn [String.eqb];
      unfold path_of_string, splitroot; cbn [Ascii.eqb Bool.eqb lstrip_slash]; rewrite Hc;
      [| match goal with |- context [Nat.eqb ?a 2] =>
           replace a with 1%nat by (cbn [String.length]; lia) end
       | match goal with |- context [Nat.eqb ?a 2] =>
           replace a with 2%nat by (cbn [String.length]; lia) end];
      cbn [Nat.eqb]; rewrite Hs, filter_components by exact Hl; reflexivity.
Qed.

Lemma slash_free_append (a b : string) :
  slash_free (String.append a b) = slash_free a && slash_free b.
Proof. induction a as [| c a IH]; cbn; [reflexivity | rewrite IH, andb_assoc; reflexivity]. Qed.

Lemma split_slash_from_free (s : string) : forall cur, slash_free cur = true ->
  Forall (fun x => slash_free x = true) (split_slash_from s cur).
Proof.
  induction s as [| c s IH]; intros cur Hc; cbn [split_slash_from].
  - constructor; [exact Hc | constructor].
  - destruct (Ascii.eqb c "/") eqn:E.
    + constructor; [exact Hc | apply IH; reflexivity].
    + apply IH. rewrite slash_free_append, Hc. cbn. rewrite E. reflexivity.
Qed.

Lemma filter_split_components (l : list string) : Forall (fun x => slash_free x = true) l ->
  Forall component
    (filter (fun x => negb (String.eqb x EmptyString) && negb (String.eqb x ".")) l).
Proof.
  induction 1 as [| x l Hx _ IH]; [constructor |]. cbn [filter].
  destruct (String.eqb_spec x EmptyString), (String.eqb_spec x "."); cbn [negb andb];
    try exact IH.
  constructor; [| exact IH]. repeat split; assumption.
Qed.

(** [Path(s)] always builds a path of this shape. *)
Lemma normal_parse (s : string) : normal (path_of_string s).
Proof.
  unfold path_of_string.
  assert (H : forall root rel, splitroot s = (root, rel) ->
            root = EmptyString \/ root = "/"%string \/ root = "//"%string).
  { intros root rel. unfold splitroot. destruct s as [| c s'].
    - intros E; injection E as <- _; auto.
    - destruct (Ascii.eqb c "/"); [| intros E; injection E as <- _; auto].
      destruct (Nat.eqb _ 2); intros E; injection E as <- _; auto. }
  destruct (splitroot s) as [root rel] eqn:E. split; [exact (H _ _ eq_refl) |].
  cbn [parts]. apply filter_split_components. apply split_slash_from_free. reflexivity.
Qed.

Lemma slash_free_substring (s : string) : forall i m, slash_free s = true ->
  slash_free (substring i m s) = true.
Proof.
  induction s as [| c s IH]; intros i m H; [destruct i, m; reflexivity |].
  cbn [slash_free] in H. apply andb_true_iff in H as [Hc H].
  destruct i as [| i], m as [| m]; cbn [substring slash_free]; try reflexivity.
  - rewrite Hc, IH by exact H. reflexivity.
  - apply IH. exact H.
  - apply IH. exact H.
Qed.

Lemma name_parts (p : path) : name p <> EmptyString ->
  parts p = removelast (parts p) ++ [name p].
Proof.
  unfold name. destruct (parts p) as [| x l] eqn:E; [cbn; intros H; contradiction |].
  intros _. apply app_removelast_last. discriminate.
Qed.

Lemma with_suffix_shape (p q : path) (suf : string) : with_suffix p suf = Ok q ->
  name p <> EmptyString /\ anchor q = anchor p /\
  parts q = removelast (parts p) ++ [name q] /\
  name q = String.append (substring 0 (String.length (name p) - String.length (suffix p))
                                    (name p)) suf.
Proof.
  unfold with_suffix. destruct (String.eqb_spec (name p) EmptyString) as [| Hn]; [discriminate |].
  intros E. injection E as <-.
  match goal with |- context [Path (anchor p) (removelast (parts p) ++ [?n'])] =>
    assert (Hq : name (Path (anchor p) (removelast (parts p) ++ [n'])) = n')
      by (unfold name; cbn [parts]; apply last_last); rewrite Hq end.
  split; [exact Hn |]. split; [reflexivity |]. split; [reflexivity |].
  destruct (String.eqb_spec (suffix p) EmptyString) as [Hs | Hs]; [| reflexivity].
  rewrite Hs. cbn [String.length]. rewrite Nat.sub_0_r. f_equal.
  clear. generalize (name p). induction s as [| c s IH]; [reflexivity |].
  cbn. f_equal. exact IH.
Qed.

Lemma normal_with_suffix (p q : path) : normal p -> with_suffix p ".png" = Ok q -> normal q.
Proof.
  intros [Ha Hl] E. destruct (with_suffix_shape p q _ E) as (Hn & Ea & Ep & Eq).
  split; [rewrite Ea; exact Ha |]. rewrite Ep. rewrite (name_parts p Hn) in Hl.
  apply Forall_app in Hl as [Hr Hlast]. inversion Hlast as [| ? ? (_ & _ & Hf) _]; subst.
  apply Forall_app. split; [exact Hr |]. constructor; [| constructor].
  rewrite Eq. repeat split.
  - intros Hz. apply (f_equal String.length) in Hz. rewrite string_length_append in Hz.
    cbn in Hz. lia.
  - intros Hz. apply (f_equal String.length) in Hz. rewrite string_length_append in Hz.
    cbn in Hz. lia.
  - rewrite slash_free_append, slash_free_substring by exact Hf. reflexivity.
Qed.

Lemma normal_ensure_png (p q : path) : normal p -> ensure_png p = Ok q -> normal q.
Proof.
  intros Hp. unfold ensure_png. destruct (negb _).
  - apply normal_with_suffix. exact Hp.
  - intros E. injection E as <-. exact Hp.
Qed.


(** ** Encoding outcomes *)


Lemma encode_ok_inv (f : fs) (cover out q : path) (message : list Z) f' :
  encode_message_to_image f cover message out = (f', Ok q) ->
  exists c frame, f cover = Some c /\ message <> [] /\ ensure_png out = Ok q /\
    payload message = Ok frame /\ (8 * length frame <= capacity c)%nat /\
    f' = save f q (Image (width c) (height c) (write_rows (rows c) (_to_bits frame))).
Proof.
  unfold encode_message_to_image.
  destruct (f cover) as [c |] eqn:Hc; [| discriminate].
  destruct message as [| m ms]; [discriminate |].
  destruct (ensure_png out) as [q' |] eqn:Eq; [| discriminate].
  unfold _fallback_encode. rewrite Hc.
  destruct (payload (m :: ms)) as [frame |] eqn:Hp; [| discriminate].
  destruct (Nat.ltb_spec (capacity c) (length (_to_bits frame))); [discriminate |].
  intros E. injection E as <- <-. rewrite to_bits_length in *.
  exists c, frame. repeat split; auto. discriminate.
Qed.

(** A successful encoding of a text from a well-formed cover is decoded
    back from the returned path. *)
Lemma encode_ok_decodes (f : fs) (cover out q : path) (c : image) (message : list Z) f' :
  encode_message_to_image f cover message out = (f', Ok q) ->
  f cover = Some c -> well_formed c -> Forall is_code_point message ->
  decode_message_from_image f' q = Ok message.
Proof.
  intros E Hc Hw Hm.
  destruct (encode_ok_inv _ _ _ _ _ _ E) as (c' & frame & Hc' & Hne & _ & Hp & Hcap & ->).
  rewrite Hc in Hc'. injection Hc' as <-.
  rewrite (decode_message_image _ _ _ (save_same _ _ _)).
  destruct (written_carrier_bytes c message frame Hw Hm Hp Hcap) as [rest Er].
  destruct (payload_spec _ _ Hp) as (data & lenb & Ee & El & Ef). subst frame.
  rewrite (decode_framed _ message data lenb rest Ee El Er (encode_scalars _ _ Hm Ee)).
  destruct message; [contradiction | reflexivity].
Qed.

Lemma ensure_png_suffix (p q : path) : ensure_png p = Ok q -> lower (suffix q) = ".png"%string.
Proof.
  unfold ensure_png.
  destruct (String.eqb_spec (lower (suffix p)) ".png") as [Hs | Hs]; cbn [negb].
  - intros E. injection E as <-. exact Hs.
  - intros E. rewrite (with_suffix_png p q E). reflexivity.
Qed.

Lemma ensure_png_png (q : path) : lower (suffix q) = ".png"%string -> ensure_png q = Ok q.
Proof. intros Hs. unfold ensure_png. rewrite Hs. reflexivity. Qed.



(** ** Properties of the output path *)

(** [ensure_png] is idempotent, and the path it returns is one that
    [is_lossless_image] accepts. *)
Theorem ensure_png_idempotent (p q : path) : ensure_png p = Ok q ->
  ensure_png q = Ok q /\ is_lossless_image q = true.
Proof.
  intros E. pose proof (ensure_png_suffix p q E) as Hs.
  split; [exact (ensure_png_png q Hs) |]. unfold is_lossless_image. rewrite Hs. reflexivity.
Qed.

Lemma ensure_png_idempotent_witness :
  ensure_png (Path "" ["a.JPG"%string]) = Ok (Path "" ["a.png"%string]) /\
  ensure_png (Path "" ["a.png"%string]) = Ok (Path "" ["a.png"%string]) /\
  is_lossless_image (Path "" ["a.png"%string]) = true.
Proof.
  assert (E : ensure_png (Path "" ["a.JPG"%string]) = Ok (Path "" ["a.png"%string]))
    by (vm_compute; reflexivity).
  split; [exact E |]. exact (ensure_png_idempotent _ _ E).
Defined.

(** [ensure_png] fails, with [ValueError], exactly on a path with an empty
    name; otherwise it keeps the anchor and the parent directories and
    changes only the last component, to the name itself when its suffix is
    [".png"] in any case, and else to the name without its suffix followed
    by [".png"]. *)
Theorem ensure_png_shape (p : path) :
  (forall e, ensure_png p = Err e -> name p = EmptyString /\ e = ValueError) /\
  (name p = EmptyString -> ensure_png p = Err ValueError) /\
  (forall q, ensure_png p = Ok q ->
     anchor q = anchor p /\ removelast (parts q) = removelast (parts p) /\
     length (parts q) = length (parts p) /\
     (lower (suffix p) = ".png"%string -> name q = name p) /\
     (lower (suffix p) <> ".png"%string ->
        name q = String.append (substring 0 (String.length (name p) - String.length (suffix p))
                                          (name p)) ".png")).
Proof.
  split; [| split].
  - intros e. unfold ensure_png. destruct (negb _); [| discriminate].
    unfold with_suffix. destruct (String.eqb_spec (name p) EmptyString); [| discriminate].
    intros E. injection E as <-. auto.
  - intros Hn. unfold ensure_png.
    assert (Hs : suffix p = EmptyString) by (unfold suffix; rewrite Hn; reflexivity).
    rewrite Hs. cbn [lower String.eqb negb]. unfold with_suffix. rewrite Hn. reflexivity.
  - intros q. unfold ensure_png.
    destruct (String.eqb_spec (lower (suffix p)) ".png") as [Hs | Hs]; cbn [negb].
    + intros E. injection E as <-. repeat split; auto. contradiction.
    + intros E. destruct (with_suffix_shape p q _ E) as (Hn & Ea & Ep & Eq).
      rewrite Ep, (name_parts p Hn), removelast_last, !length_app, removelast_last.
      repeat split; auto. contradiction.
Qed.

Lemma ensure_png_shape_witness :
  name (Path "/" []) = EmptyString /\
  ensure_png (Path "/" []) = Err ValueError /\
  ensure_png (Path "/" ["tmp"; "x.tar.gz"]%string) = Ok (Path "/" ["tmp"; "x.tar.png"]%string).
Proof.
  destruct (ensure_png_shape (Path "/" [])) as (_ & H & _).
  split; [reflexivity |]. split; [exact (H eq_refl) | vm_compute; reflexivity].
Defined.

(** ** The GUI callbacks *)

Lemma lstrip_ws_Forall (P : Z -> Prop) (s : list Z) : Forall P s -> Forall P (lstrip_ws s).
Proof.
  induction 1 as [| x s Hx Hs IH]; [constructor |]. cbn [lstrip_ws].
  destruct (is_space x); [exact IH | constructor; assumption].
Qed.

Lemma strip_Forall (P : Z -> Prop) (s : list Z) : Forall P s -> Forall P (strip s).
Proof.
  intros H. unfold strip. apply Forall_rev, lstrip_ws_Forall, Forall_rev, lstrip_ws_Forall, H.
Qed.

Lemma string_append_cancel (a x y : string) : String.append a x = String.append a y -> x = y.
Proof. induction a as [| c a IH]; cbn; [auto | intros E; injection E; exact IH]. Qed.

(** A message box whose text is blank after [strip()] (only whitespace,
    such as the newline that the [Text] widget adds) is refused: the status
    bar reads "Encode failed." and no file is written. *)
Theorem gui_blank_message (f : fs) (cover_field output_field : string) (message_text : list Z) :
  strip message_text = [] ->
  _on_encode f cover_field message_text output_field = (f, "Encode failed."%string).
Proof.
  intros Hs. unfold _on_encode. rewrite Hs. unfold encode_message_to_image.
  destruct (f (path_of_string cover_field)); reflexivity.
Qed.

Lemma gui_blank_message_witness :
  strip [32; 9; 10] = [] /\
  _on_encode fs_8x4 "cover.png" [32; 9; 10] "out.png" = (fs_8x4, "Encode failed."%string).
Proof.
  assert (Hs : strip [32; 9; 10] = []) by reflexivity.
  split; [exact Hs | exact (gui_blank_message fs_8x4 "cover.png" "out.png" _ Hs)].
Defined.

(** After a successful encoding in the GUI, decoding the path shown in the
    status bar ("Encoded -> <path>") displays the message text with its
    leading and trailing whitespace removed (the text [strip()] gave the
    encoder), for a well-formed cover and any text. *)
Theorem gui_roundtrip (f : fs) (cover_field output_field s : string) (message_text : list Z)
  (c : image) f' :
  _on_encode f cover_field message_text output_field = (f', String.append "Encoded -> " s) ->
  f (path_of_string cover_field) = Some c -> well_formed c ->
  Forall is_code_point message_text ->
  _on_decode f' s = ("Decoded message displayed."%string, Some (strip message_text)).
Proof.
  intros E Hc Hw Hm. unfold _on_encode in E.
  set (out := if String.eqb output_field EmptyString then "stego.png"%string else output_field)
    in E.
  destruct (encode_message_to_image f (path_of_string cover_field) (strip message_text)
              (path_of_string out)) as [f1 [o | e]] eqn:Ee.
  - injection E as -> Hs. subst s.
    destruct (encode_ok_inv _ _ _ _ _ _ Ee) as (_ & _ & _ & _ & Eq & _).
    unfold _on_decode.
    rewrite (parse_render o (normal_ensure_png _ _ (normal_parse out) Eq)).
    rewrite (encode_ok_decodes _ _ _ _ c _ _ Ee Hc Hw (strip_Forall _ _ Hm)). reflexivity.
  - destruct e; injection E as _ Hs; discriminate Hs.
Qed.

Lemma gui_roundtrip_witness :
  snd (_on_encode fs_8x4 "cover.png" [32; 65; 10] "") = "Encoded -> stego.png"%string /\
  _on_decode (fst (_on_encode fs_8x4 "cover.png" [32; 65; 10] "")) "stego.png"
  = ("Decoded message displayed."%string, Some [65]).
Proof.
  assert (Hs : snd (_on_encode fs_8x4 "cover.png" [32; 65; 10] "")
               = String.append "Encoded -> " "stego.png") by (vm_compute; reflexivity).
  split; [exact Hs |].
  apply (gui_roundtrip fs_8x4 "cover.png" "" "stego.png" [32; 65; 10] cover_8x4).
  - rewrite <- Hs. apply surjective_pairing.
  - reflexivity.
  - split; [reflexivity |]. repeat (apply Forall_cons; [reflexivity |]). apply Forall_nil.
  - repeat (apply Forall_cons; [unfold is_code_point; lia |]). apply Forall_nil.
Defined.



(** ** Bit codec *)

Lemma Forall_firstn' {A} (P : A -> Prop) (n : nat) (l : list A) :
  Forall P l -> Forall P (firstn n l).
Proof.
  revert l. induction n as [| n IH]; intros l H; [constructor |].
  destruct H; cbn; constructor; auto.
Qed.

Lemma Forall_skipn' {A} (P : A -> Prop) (n : nat) (l : list A) :
  Forall P l -> Forall P (skipn n l).
Proof.
  revert l. induction n as [| n IH]; intros l H; [exact H |].
  destruct H; cbn; [constructor | auto].
Qed.

Lemma msb_value_byte (x0 x1 x2 x3 x4 x5 x6 x7 : Z) :
  Forall is_bit [x0; x1; x2; x3; x4; x5; x6; x7] ->
  is_byte (msb_value [x0; x1; x2; x3; x4; x5; x6; x7]) /\
  byte_bits (msb_value [x0; x1; x2; x3; x4; x5; x6; x7]) = [x0; x1; x2; x3; x4; x5; x6; x7].
Proof.
  intros H.
  repeat match goal with
         | H : Forall is_bit (_ :: _) |- _ =>
             let Hx := fresh in inversion H as [| ? ? Hx ?]; subst; clear H;
             destruct Hx as [-> | ->]
         end;
  (split; [unfold is_byte, msb_value; cbn; lia | reflexivity]).
Qed.

Lemma regroup_props (n : nat) : forall l, (length l <= n)%nat -> Forall is_bit l ->
  length (regroup l) = (length l / 8)%nat /\ Forall is_byte (regroup l) /\
  _to_bits (regroup l) = firstn (8 * (length l / 8)) l.
Proof.
  induction n as [| n IH]; intros l Hn Hb.
  - destruct l; [repeat split; constructor | cbn in Hn; lia].
  - do 8 (destruct l as [| ? l];
          [cbn [regroup length]; rewrite ?Nat.div_small by lia; repeat split; constructor |]).
    cbn [regroup].
    assert (Hb8 : Forall is_bit [z; z0; z1; z2; z3; z4; z5; z6]).
    { do 8 (inversion Hb as [| ? ? ? Hb']; subst; clear Hb; rename Hb' into Hb;
            constructor; [assumption |]). constructor. }
    do 8 (inversion Hb as [| ? ? ? Hb']; subst; clear Hb; rename Hb' into Hb).
    destruct (msb_value_byte _ _ _ _ _ _ _ _ Hb8) as [Hv Hbits].
    destruct (IH l ltac:(cbn in Hn; lia) Hb) as (Ih1 & Ih2 & Ih3).
    replace (length (z :: z0 :: z1 :: z2 :: z3 :: z4 :: z5 :: z6 :: l) / 8)%nat
      with (S (length l / 8)).
    2:{ cbn [length]. replace (S (S (S (S (S (S (S (S (length l))))))))) with (1 * 8 + length l)%nat by lia.
        rewrite Nat.div_add_l by lia. reflexivity. }
    split; [cbn [length]; rewrite Ih1; reflexivity |].
    split; [constructor; [exact Hv | exact Ih2] |].
    unfold _to_bits. cbn [flat_map]. fold (_to_bits (regroup l)).
    rewrite Hbits, Ih3. replace (8 * S (length l / 8))%nat with (S (S (S (S (S (S (S (S (8 * (length l / 8)))))))))) by lia.
    reflexivity.
Qed.

Lemma from_bits_props (bits : list Z) : Forall is_bit bits ->
  length (_from_bits bits) = (length bits / 8)%nat /\
  Forall is_byte (_from_bits bits) /\
  _to_bits (_from_bits bits) = firstn (8 * (length bits / 8)) bits.
Proof.
  intros Hb. rewrite (from_bits_regroup_n (length bits) bits (le_n _) Hb).
  exact (regroup_props (length bits) bits (le_n _) Hb).
Qed.

(** For a sequence of bits, [_from_bits] returns [len(bits) // 8] bytes,
    each in [0, 255], and [_to_bits] gives back the bits of all the
    complete groups: [_to_bits(_from_bits(bits)) = bits[:8 * (len(bits) // 8)]],
    so the two functions are inverse on sequences of whole bytes. *)
Theorem from_bits_bytes (bits : list Z) : Forall is_bit bits ->
  length (_from_bits bits) = (length bits / 8)%nat /\
  Forall is_byte (_from_bits bits) /\
  _to_bits (_from_bits bits) = firstn (8 * (length bits / 8)) bits.
Proof. exact (from_bits_props bits). Qed.

Lemma from_bits_bytes_witness :
  Forall is_bit [1; 0; 1; 0; 0; 0; 0; 1; 1; 1] /\
  _from_bits [1; 0; 1; 0; 0; 0; 0; 1; 1; 1] = [161] /\
  _to_bits [161] = [1; 0; 1; 0; 0; 0; 0; 1].
Proof.
  assert (Hb : Forall is_bit [1; 0; 1; 0; 0; 0; 0; 1; 1; 1])
    by (repeat (apply Forall_cons; [unfold is_bit; lia |]); apply Forall_nil).
  destruct (from_bits_bytes _ Hb) as (_ & _ & E).
  split; [exact Hb |]. split; [vm_compute; reflexivity |].
  assert (Hf : _from_bits [1; 0; 1; 0; 0; 0; 0; 1; 1; 1] = [161]) by (vm_compute; reflexivity).
  rewrite Hf in E. rewrite E. reflexivity.
Defined.

(** ** UTF-8 decoding yields text *)

Lemma cons_opt_some (x : Z) (r : option (list Z)) (s : list Z) :
  cons_opt x r = Some s -> exists s', r = Some s' /\ s = x :: s'.
Proof. destruct r; cbn; intros E; [injection E as <-; eauto | discriminate]. Qed.

Ltac bools :=
  repeat match goal with
         | H : (_ && _) = true |- _ => apply andb_true_iff in H as [? ?]
         | H : (_ <=? _) = true |- _ => apply Z.leb_le in H
         end.

Lemma scalar_intro (cp : Z) : 0 <= cp <= 0x10FFFF -> (cp < 0xD800 \/ 0xDFFF < cp) ->
  is_scalar cp.
Proof.
  intros H1 H2. split; [exact H1 |]. unfold is_surrogate.
  destruct (Z.leb_spec 0xD800 cp), (Z.leb_spec cp 0xDFFF); cbn; try reflexivity. lia.
Qed.

Lemma utf8_decode_scalars (n : nat) : forall bs s, (length bs <= n)%nat ->
  Forall is_byte bs -> utf8_decode bs = Some s -> Forall is_scalar s.
Proof.
  induction n as [| n IH]; intros bs s Hn Hb Hd.
  - destruct bs; [injection Hd as <-; constructor | cbn in Hn; lia].
  - destruct bs as [| b0 r0]; [injection Hd as <-; constructor |].
    inversion Hb as [| ? ? Hb0 Hr0]; subst. unfold is_byte in Hb0.
    cbn [utf8_decode] in Hd.
    destruct (Z.ltb_spec b0 0x80).
    { apply cons_opt_some in Hd as (s' & Hd & ->).
      constructor; [apply scalar_intro; lia |].
      apply (IH r0); [cbn in Hn; lia | exact Hr0 | exact Hd]. }
    destruct (in_range b0 0xC2 0xDF) eqn:E1.
    { destruct r0 as [| b1 r1]; [discriminate |].
      inversion Hr0 as [| ? ? Hb1 Hr1]; subst.
      destruct (is_cont b1) eqn:E2; [| discriminate].
      apply cons_opt_some in Hd as (s' & Hd & ->).
      unfold is_cont, in_range in *. bools.
      constructor; [apply scalar_intro; lia |].
      apply (IH r1); [cbn in Hn; lia | exact Hr1 | exact Hd]. }
    destruct (in_range b0 0xE0 0xEF) eqn:E3.
    { destruct r0 as [| b1 [| b2 r2]]; try discriminate.
      inversion Hr0 as [| ? ? Hb1 Hr1]; subst. inversion Hr1 as [| ? ? Hb2 Hr2]; subst.
      destruct (in_range b1 (lo3 b0) (hi3 b0) && is_cont b2) eqn:E4; [| discriminate].
      apply cons_opt_some in Hd as (s' & Hd & ->).
      unfold lo3, hi3, is_cont, in_range in *. bools.
      constructor.
      - destruct (Z.eqb_spec b0 0xE0), (Z.eqb_spec b0 0xED); apply scalar_intro; lia.
      - apply (IH r2); [cbn in Hn; lia | exact Hr2 | exact Hd]. }
    destruct (in_range b0 0xF0 0xF4) eqn:E5; [| discriminate].
    destruct r0 as [| b1 [| b2 [| b3 r3]]]; try discriminate.
    inversion Hr0 as [| ? ? Hb1 Hr1]; subst. inversion Hr1 as [| ? ? Hb2 Hr2]; subst.
    inversion Hr2 as [| ? ? Hb3 Hr3]; subst.
    destruct (in_range b1 (lo4 b0) (hi4 b0) && is_cont b2 && is_cont b3) eqn:E6;
      [| discriminate].
    apply cons_opt_some in Hd as (s' & Hd & ->).
    unfold lo4, hi4, is_cont, in_range in *. bools.
    constructor.
    + destruct (Z.eqb_spec b0 0xF0), (Z.eqb_spec b0 0xF4); apply scalar_intro; lia.
    + apply (IH r3); [cbn in Hn; lia | exact Hr3 | exact Hd].
Qed.

Lemma read_rows_bits (rs : list (list pixel)) : Forall is_bit (read_rows rs).
Proof.
  unfold read_rows, read_row. apply Forall_flat_map. apply Forall_forall. intros row _.
  apply Forall_flat_map. apply Forall_forall. intros p _. unfold read_pixel.
  repeat (apply Forall_cons; [rewrite land_1; unfold is_bit;
    match goal with |- ?x mod 2 = 0 \/ _ => pose proof (Z.mod_pos_bound x 2 ltac:(lia)) end;
    lia |]).
  apply Forall_nil.
Qed.

(** Whatever image it reads, a successful decoding returns a non-empty
    valid text: every character is a Unicode scalar value (at most
    0x10FFFF, never a surrogate). *)
Theorem decode_valid_text (f : fs) (p : path) (s : list Z) :
  decode_message_from_image f p = Ok s -> s <> [] /\ Forall is_scalar s.
Proof.
  unfold decode_message_from_image, _fallback_decode.
  destruct (f p) as [img |]; [| discriminate].
  destruct (fallback_decode_image img) as [| c cs] eqn:E; [discriminate |].
  intros H. injection H as <-. split; [discriminate |]. rewrite <- E.
  unfold fallback_decode_image in *. cbn zeta in *.
  destruct (negb _); [discriminate |].
  set (msg_bits := slice (read_rows (rows img)) _ _) in *.
  assert (Hb : Forall is_bit msg_bits)
    by (apply Forall_firstn', Forall_skipn', read_rows_bits).
  destruct (from_bits_props msg_bits Hb) as (_ & Hbytes & _).
  destruct (utf8_decode (_from_bits msg_bits)) as [s |] eqn:Hd; [| constructor].
  exact (utf8_decode_scalars _ _ s (le_n _) Hbytes Hd).
Qed.

Lemma decode_valid_text_witness :
  decode_message_from_image (fun q => if path_eq_dec q cover_path then Some truncated_carrier
                                      else None) cover_path = Ok [65] /\
  [65] <> [] /\ Forall is_scalar [65].
Proof.
  assert (E : decode_message_from_image
                (fun q => if path_eq_dec q cover_path then Some truncated_carrier else None)
                cover_path = Ok [65]) by (vm_compute; reflexivity).
  split; [exact E | exact (decode_valid_text _ _ _ E)].
Defined.

(** ** Images that hold no message *)

Lemma from_bits_loop_zeros (l : list Z) : Forall (fun x => x = 0) l -> forall i,
  Forall (fun x => x = 0) (from_bits_loop l i 0).
Proof.
  induction 1 as [| x l Hx _ IH]; intros i; [constructor |]. subst x.
  cbn [from_bits_loop]. change (Z.lor (Z.shiftl 0 1) 0) with 0.
  destruct ((i + 1) mod 8 =? 0); [constructor; [reflexivity |] |]; apply IH.
Qed.

Lemma startswith_zeros (l : list Z) : Forall (fun x => x = 0) l -> startswith l _HEADER = false.
Proof. intros H. destruct H as [| x l -> _]; reflexivity. Qed.

Lemma even_land (x : Z) : Z.even x = true -> Z.land x 1 = 0.
Proof.
  intros H. rewrite land_1. apply Z.even_spec in H as [m ->].
  rewrite Z.mul_comm, Z.mod_mul by lia. reflexivity.
Qed.

(** An image whose red, green and blue channels are all even (all low bits
    0, such as a blank image) holds no message: decoding it fails with "No
    hidden message found or unable to decode.", whatever its size. *)
Theorem decode_even_image (f : fs) (p : path) (img : image) :
  f p = Some img -> Forall even_rgb (concat (rows img)) ->
  decode_message_from_image f p = Err (SteganographyError NoHiddenMessage).
Proof.
  intros Hf He. rewrite (decode_message_image f p img Hf).
  assert (Hz : Forall (fun x => x = 0) (read_rows (rows img))).
  { rewrite read_rows_concat. unfold read_row. apply Forall_flat_map.
    apply Forall_forall. intros q Hq. apply Forall_forall with (x := q) in He; [| exact Hq].
    destruct He as (Hr & Hg & Hb). unfold read_pixel.
    rewrite !even_land by assumption. repeat constructor. }
  unfold fallback_decode_image, _from_bits. cbn zeta.
  rewrite (startswith_zeros _ (from_bits_loop_zeros _ (Forall_firstn' _ _ _ Hz) 0)).
  reflexivity.
Qed.

Lemma decode_even_image_witness :
  decode_message_from_image
    (fun q => if path_eq_dec q cover_path
              then Some (Image 16 16 (repeat (repeat (Pixel 0 128 254 255) 16) 16)) else None)
    cover_path = Err (SteganographyError NoHiddenMessage).
Proof.
  apply decode_even_image with (img := Image 16 16 (repeat (repeat (Pixel 0 128 254 255) 16) 16)).
  - reflexivity.
  - apply Forall_forall. intros q Hq. cbn [rows] in Hq.
    apply in_concat in Hq as (row & Hrow & Hq).
    apply repeat_spec in Hrow. subst row. apply repeat_spec in Hq. subst q.
    repeat split.
Defined.

(** ** Texts that UTF-8 cannot encode *)

Lemma utf8_encode_surrogate (message : list Z) (cp : Z) :
  In cp message -> is_surrogate cp = true -> utf8_encode message = None.
Proof.
  intros Hin Hs. induction message as [| x l IH]; [destruct Hin |].
  cbn [utf8_encode]. destruct Hin as [-> | Hin].
  - assert (E : utf8_encode_char cp = None).
    { unfold utf8_encode_char. rewrite Hs. unfold is_surrogate in Hs.
      apply andb_true_iff in Hs as [H1 _]. apply Z.leb_le in H1.
      destruct (Z.ltb_spec cp 0x80); [lia |]. destruct (Z.ltb_spec cp 0x800); [lia |].
      reflexivity. }
    rewrite E. reflexivity.
  - rewrite (IH Hin). destruct (utf8_encode_char x); reflexivity.
Qed.

(** A message containing a lone surrogate (a [str] that UTF-8 cannot
    encode) is refused with [UnicodeEncodeError] for every existing cover
    and usable output path, after the empty-message check and before
    anything is written. *)
Theorem encode_surrogate (f : fs) (cover out : path) (c : image) (message : list Z) (cp : Z) :
  f cover = Some c -> In cp message -> is_surrogate cp = true -> name out <> EmptyString ->
  encode_message_to_image f cover message out = (f, Err UnicodeEncodeError).
Proof.
  intros Hc Hin Hs Hn. destruct (ensure_png_ok out Hn) as [q Eq].
  assert (Hne : message <> []) by (intros ->; destruct Hin).
  rewrite (encode_unfold f cover out q c message Hc Hne Eq).
  unfold _fallback_encode, payload. rewrite Hc, (utf8_encode_surrogate message cp Hin Hs).
  reflexivity.
Qed.

Lemma encode_surrogate_witness :
  encode_message_to_image fs_8x4 cover_path [65; 0xD800] out_path
  = (fs_8x4, Err UnicodeEncodeError).
Proof.
  apply (encode_surrogate fs_8x4 cover_path out_path cover_8x4 [65; 0xD800] 0xD800).
  - reflexivity.
  - right. left. reflexivity.
  - reflexivity.
  - discriminate.
Defined.

(** ** Size of the frame *)

Lemma utf8_encode_char_length (cp : Z) (bs : list Z) : utf8_encode_char cp = Some bs ->
  (1 <= length bs <= 4)%nat /\ (cp < 0x80 -> bs = [cp]).
Proof.
  unfold utf8_encode_char.
  destruct (Z.ltb_spec cp 0x80); [intros E; injection E as <-; cbn; split; [lia | auto] |].
  destruct (Z.ltb_spec cp 0x800); [intros E; injection E as <-; cbn; split; [lia | lia] |].
  destruct (is_surrogate cp); [discriminate |].
  destruct (Z.ltb_spec cp 0x10000); intros E; injection E as <-; cbn; split; lia.
Qed.

Lemma utf8_encode_length (s : list Z) : Forall is_scalar s ->
  exists data, utf8_encode s = Some data /\
    (length s <= length data <= 4 * length s)%nat /\
    (Forall (fun cp => cp < 0x80) s -> data = s).
Proof.
  intros Hs. destruct (utf8_roundtrip s Hs) as (data & E & _ & _). exists data.
  split; [exact E |]. clear Hs. revert data E.
  induction s as [| cp s IH]; intros data E.
  - injection E as <-. split; [cbn; lia | auto].
  - cbn [utf8_encode] in E.
    destruct (utf8_encode_char cp) as [bs |] eqn:Ec; [| discriminate].
    destruct (utf8_encode s) as [d |] eqn:Ed; [| discriminate].
    injection E as <-. destruct (utf8_encode_char_length cp bs Ec) as [Hl Ha].
    destruct (IH d eq_refl) as [Hl' Ha']. rewrite length_app. cbn [length].
    split; [lia |]. intros Hall. inversion Hall as [| ? ? Hcp Hall']; subst.
    rewrite (Ha Hcp), (Ha' Hall'). reflexivity.
Qed.

(** The UTF-8 encoding of a text of [n] scalar values has between [n] and
    [4 n] bytes, and is the text itself when every character is ASCII. *)
Theorem utf8_length (s : list Z) : Forall is_scalar s ->
  exists data, utf8_encode s = Some data /\
    (length s <= length data <= 4 * length s)%nat /\
    (Forall (fun cp => cp < 0x80) s -> data = s).
Proof. exact (utf8_encode_length s). Qed.

Lemma utf8_length_witness :
  utf8_encode [72; 0xE9; 0x20AC; 0x1F600] = Some [72; 0xC3; 0xA9; 0xE2; 0x82; 0xAC; 0xF0; 0x9F; 0x98; 0x80].
Proof.
  assert (Hs : Forall is_scalar [72; 0xE9; 0x20AC; 0x1F600]).
  { repeat (apply Forall_cons; [split; [unfold is_code_point; lia | reflexivity] |]).
    apply Forall_nil. }
  destruct (utf8_length _ Hs) as (data & E & _ & _).
  rewrite E. f_equal. vm_compute in E. injection E as <-. reflexivity.
Defined.

Lemma payload_text (message : list Z) : Forall is_scalar message ->
  Z.of_nat (4 * length message) < 2 ^ 32 ->
  exists frame, payload message = Ok frame /\
    (9 + length message <= length frame <= 9 + 4 * length message)%nat.
Proof.
  intros Hs Hl. change (2 ^ 32) with 4294967296 in *.
  destruct (utf8_encode_length message Hs) as (data & Ee & Hd & _).
  destruct (to_bytes4_some (Z.of_nat (length data)) ltac:(change (2 ^ 32) with 4294967296; lia)) as [lenb El].
  destruct (to_bytes4_spec _ _ El) as (_ & _ & Hl4).
  exists (_HEADER ++ lenb ++ data). unfold payload. rewrite Ee, El.
  split; [reflexivity |]. rewrite !length_app, Hl4. change (length _HEADER) with 5%nat. lia.
Qed.

(** How many characters fit: with an existing well-formed cover and a
    usable output path, a non-empty text of [n] scalar values is encoded,
    and decoded back from the returned path, whenever
    [8 (9 + 4 n) <= width * height * 3]; it is refused with the "too large"
    error, nothing written, whenever [width * height * 3 < 8 (9 + n)]. *)
Theorem capacity_in_characters (f : fs) (cover out : path) (c : image) (message : list Z) :
  f cover = Some c -> well_formed c -> Forall is_scalar message -> message <> [] ->
  name out <> EmptyString -> Z.of_nat (4 * length message) < 2 ^ 32 ->
  ((8 * (9 + 4 * length message) <= capacity c)%nat ->
     exists f' q, encode_message_to_image f cover message out = (f', Ok q) /\
                  decode_message_from_image f' q = Ok message) /\
  ((capacity c < 8 * (9 + length message))%nat ->
     encode_message_to_image f cover message out = (f, Err (SteganographyError TooLarge))).
Proof.
  intros Hc Hw Hs Hne Hn Hl.
  destruct (payload_text message Hs Hl) as (frame & Hp & Hf).
  split.
  - intros Hcap. destruct (ensure_png_ok out Hn) as [q Eq].
    assert (E : encode_message_to_image f cover message out
                = (save f q (Image (width c) (height c) (write_rows (rows c) (_to_bits frame))),
                   Ok q)).
    { rewrite (encode_unfold f cover out q c message Hc Hne Eq).
      rewrite (fallback_encode_saves f cover q c message frame Hc Hp) by lia. reflexivity. }
    eexists _, q. split; [exact E |].
    apply (encode_ok_decodes f cover out q c message _ E Hc Hw).
    apply Forall_impl with (2 := Hs). intros x [H _]. exact H.
  - intros Hcap. apply (encode_too_large f cover out c message frame Hc Hne Hp Hn). lia.
Qed.

Definition cover_6x6 : image := Image 6 6 (repeat (repeat (Pixel 9 9 9 255) 6) 6).
Definition fs_6x6 : fs := fun q => if path_eq_dec q cover_path then Some cover_6x6 else None.

Lemma capacity_in_characters_witness :
  exists f' q, encode_message_to_image fs_6x6 cover_path [0x20AC] out_path = (f', Ok q) /\
               decode_message_from_image f' q = Ok [0x20AC].
Proof.
  destruct (capacity_in_characters fs_6x6 cover_path out_path cover_6x6 [0x20AC])
    as [H _].
  - reflexivity.
  - split; [reflexivity |]. repeat (apply Forall_cons; [reflexivity |]). apply Forall_nil.
  - apply Forall_cons; [split; [unfold is_code_point; lia | reflexivity] | apply Forall_nil].
  - discriminate.
  - discriminate.
  - cbn. lia.
  - apply H. vm_compute. lia.
Defined.

(** ** Encoding into a stego image *)

Lemma written_well_formed (c : image) (bits : list Z) : well_formed c ->
  well_formed (Image (width c) (height c) (write_rows (rows c) bits)).
Proof.
  intros [Hh Hw]. destruct (write_rows_spec (rows c) bits) as [Hm _].
  split; cbn [rows width height].
  - rewrite <- (length_map (@length pixel) (write_rows (rows c) bits)), Hm, length_map.
    exact Hh.
  - assert (Hf : Forall (fun n => n = width c) (map (@length pixel) (write_rows (rows c) bits))).
    { rewrite Hm. apply Forall_map. exact Hw. }
    apply Forall_map in Hf. exact Hf.
Qed.

(** A successful encoding stores an image of the cover's size, hence of
    the same capacity, and well formed when the cover is; used as a cover
    in turn, it takes a new message, which replaces the old one: decoding
    the second output returns the second message. *)
Theorem reencode (f : fs) (cover out1 o1 : path) (c : image) (m1 : list Z) f1 :
  encode_message_to_image f cover m1 out1 = (f1, Ok o1) ->
  f cover = Some c -> well_formed c ->
  exists c1, f1 o1 = Some c1 /\ width c1 = width c /\ height c1 = height c /\
    capacity c1 = capacity c /\ well_formed c1 /\
    forall m2 out2 f2 o2, Forall is_code_point m2 ->
      encode_message_to_image f1 o1 m2 out2 = (f2, Ok o2) ->
      decode_message_from_image f2 o2 = Ok m2.
Proof.
  intros E Hc Hw.
  destruct (encode_ok_inv _ _ _ _ _ _ E) as (c' & frame & Hc' & _ & _ & _ & _ & ->).
  rewrite Hc in Hc'. injection Hc' as <-.
  eexists. split; [apply save_same |]. cbn [width height].
  split; [reflexivity |]. split; [reflexivity |]. split; [reflexivity |].
  pose proof (written_well_formed c (_to_bits frame) Hw) as Hw1.
  split; [exact Hw1 |].
  intros m2 out2 f2 o2 Hm E2.
  exact (encode_ok_decodes _ _ _ _ _ _ _ E2 (save_same _ _ _) Hw1 Hm).
Qed.

Lemma reencode_witness :
  decode_message_from_image
    (fst (encode_message_to_image (fst (encode_message_to_image fs_8x4 cover_path [65; 66] out_path))
            out_path [67] out_path)) out_path = Ok [67].
Proof.
  set (f1 := fst (encode_message_to_image fs_8x4 cover_path [65; 66] out_path)).
  assert (E1 : encode_message_to_image fs_8x4 cover_path [65; 66] out_path = (f1, Ok out_path)).
  { rewrite (surjective_pairing (encode_message_to_image fs_8x4 cover_path [65; 66] out_path)).
    f_equal; vm_compute; reflexivity. }
  assert (Hw : well_formed cover_8x4).
  { split; [reflexivity |]. repeat (apply Forall_cons; [reflexivity |]). apply Forall_nil. }
  destruct (reencode fs_8x4 cover_path out_path out_path cover_8x4 [65; 66] f1 E1 eq_refl Hw)
    as (c1 & _ & _ & _ & _ & _ & H).
  apply (H [67] out_path).
  - apply Forall_cons; [unfold is_code_point; lia | apply Forall_nil].
  - rewrite (surjective_pairing (encode_message_to_image f1 out_path [67] out_path)).
    f_equal; unfold f1; vm_compute; reflexivity.
Defined.

(** ** What the decoder reads *)

(** Decoding reads only the low bits of the 9-byte header and of the
    [LENGTH] bytes it declares: two stored images whose low-bit sequences
    share a prefix covering both decode alike, whatever follows (pixels
    after the frame, left-over bits of an older and longer message). *)
Theorem decode_prefix (f g : fs) (p q : path) (a b : image) (pre ra rb : list Z) :
  f p = Some a -> g q = Some b ->
  read_rows (rows a) = pre ++ ra -> read_rows (rows b) = pre ++ rb ->
  (72 + 8 * Z.to_nat (from_bytes (slice (_from_bits (firstn 72 pre)) 5 9)) <= length pre)%nat ->
  decode_message_from_image f p = decode_message_from_image g q.
Proof.
  intros Hf Hg Ha Hb Hl.
  rewrite (decode_message_image f p a Hf), (decode_message_image g q b Hg).
  unfold fallback_decode_image. rewrite Ha, Hb. cbn zeta.
  change ((5 + 4) * 8)%nat with 72%nat.
  rewrite !firstn_app. replace (72 - length pre)%nat with 0%nat by lia.
  rewrite firstn_O, !app_nil_r.
  destruct (negb _); [reflexivity |].
  rewrite to_nat_times_8. unfold slice in *. rewrite !skipn_app.
  change (5 + 4 - 5)%nat with 4%nat. change (9 - 5)%nat with 4%nat in Hl.
  replace (72 - length pre)%nat with 0%nat by lia. rewrite !skipn_O.
  rewrite !firstn_app.
  replace (72 + 8 * _ - 72 - length (skipn 72 pre))%nat with 0%nat
    by (rewrite length_skipn; lia).
  rewrite firstn_O, !app_nil_r. reflexivity.
Qed.

(** Two carriers of ["A"] whose low bits differ after the frame. *)
Definition stego_even : image :=
  Image 6 5 (write_rows (repeat (repeat (Pixel 20 40 60 255) 6) 5)
                        (_to_bits (_HEADER ++ [0; 0; 0; 1] ++ [65]))).
Definition stego_odd : image :=
  Image 6 5 (write_rows (repeat (repeat (Pixel 21 41 61 255) 6) 5)
                        (_to_bits (_HEADER ++ [0; 0; 0; 1] ++ [65]))).

Lemma decode_prefix_witness :
  skipn 80 (read_rows (rows stego_even)) <> skipn 80 (read_rows (rows stego_odd)) /\
  decode_message_from_image (fun _ => Some stego_even) cover_path
  = decode_message_from_image (fun _ => Some stego_odd) cover_path.
Proof.
  split; [vm_compute; discriminate |].
  apply (decode_prefix _ _ _ _ stego_even stego_odd (firstn 80 (read_rows (rows stego_even)))
           (skipn 80 (read_rows (rows stego_even))) (skipn 80 (read_rows (rows stego_odd)))).
  - reflexivity.
  - reflexivity.
  - symmetry. apply firstn_skipn.
  - vm_compute. reflexivity.
  - apply Nat.leb_le. vm_compute. reflexivity.
Defined.
